(** * palette_swap: a shallow embedding of [palette_swap.py]

    The program reads an image, lists the distinct colors that occur in it,
    pairs that list by position with the colors of a destination palette and
    repaints every pixel through the resulting dictionary.

    Python values are modelled as follows.
    - A color is a Python tuple of ints: [list Z].
    - An image is a Pillow image of mode RGBA: its size and its rows of
      pixels, row [y] holding the pixels [(0, y)], [(1, y)], ...
    - A dictionary keyed by colors is a [gmap Color Color].
    - A call that can raise returns a [res], which carries the exception.
    - A [str] is a [string] whose characters are the code points below 256;
      text with other characters is outside the model.
    - [print] calls write to the terminal only and are left out. *)

From Stdlib Require Import ZArith Lia Ascii String.
From stdpp Require Import base option list gmap strings pretty.

(** ** Exceptions *)

Definition Color : Type := list Z.

Inductive exn : Type :=
| ZeroDivisionError
| KeyError (key : Color)
| IndexError
| ValueError (literal : string)
| TypeError
| OverflowError.

Inductive res (A : Type) : Type :=
| Ok (a : A)
| Raise (e : exn).

Arguments Ok {A} a.
Arguments Raise {A} e.

#[global] Instance res_ret : MRet res := λ A, Ok.

#[global] Instance res_bind : MBind res :=
  λ A B f m, match m with Ok a => f a | Raise e => Raise e end.

#[global] Instance res_fmap : FMap res :=
  λ A B f m, match m with Ok a => Ok (f a) | Raise e => Raise e end.

(** A [for] loop whose body can raise: the state is threaded through the
    iterations and the first exception ends the loop. *)
Fixpoint foldM {A B : Type} (f : B → A → res B) (b : B) (l : list A) : res B :=
  match l with
  | [] => Ok b
  | x :: l' => b' ← f b x; foldM f b' l'
  end.

(** [l[i]] on a Python list. *)
Definition index {A : Type} (l : list A) (i : nat) : res A :=
  match l !! i with
  | Some a => Ok a
  | None => Raise IndexError
  end.

(** [d[k]] on a Python dict. *)
Definition getitem (d : gmap Color Color) (k : Color) : res Color :=
  match d !! k with
  | Some v => Ok v
  | None => Raise (KeyError k)
  end.

(** ** Pillow images (mode RGBA) *)

Record Image : Type := mkImage {
  im_size : nat * nat;
  im_rows : list (list Color)
}.

Definition width (im : Image) : nat := fst (im_size im).
Definition height (im : Image) : nat := snd (im_size im).

(** The rows of an image agree with its size. *)
Definition wf_image (im : Image) : Prop :=
  length (im_rows im) = height im ∧
  Forall (λ row, length row = width im) (im_rows im).

(** A pixel value of an RGBA image: four channels, each in [0, 255]. *)
Definition rgba (c : Color) : Prop :=
  length c = 4 ∧ Forall (λ v, (0 ≤ v ≤ 255)%Z) c.

Definition rgba_image (im : Image) : Prop :=
  Forall (Forall rgba) (im_rows im).

#[global] Instance wf_image_dec (im : Image) : Decision (wf_image im).
Proof. unfold wf_image. apply _. Defined.

#[global] Instance rgba_dec (c : Color) : Decision (rgba c).
Proof. unfold rgba. apply _. Defined.

#[global] Instance rgba_image_dec (im : Image) : Decision (rgba_image im).
Proof. unfold rgba_image. apply _. Defined.

(** [Image.new("RGBA", size, color)] *)
Definition Image_new (size : nat * nat) (color : Color) : Image :=
  mkImage size (replicate (snd size) (replicate (fst size) color)).

(** [image.getdata()]: the pixels row after row, each row left to right. *)
Definition getdata (im : Image) : list Color := concat (im_rows im).

(** [image.load()[x, y]] *)
Definition getpixel (im : Image) (x y : nat) : res Color :=
  match im_rows im !! y with
  | Some row => index row x
  | None => Raise IndexError
  end.

(** [image.load()[x, y] = v] *)
Definition putpixel (im : Image) (x y : nat) (v : Color) : res Image :=
  match im_rows im !! y with
  | Some row =>
      if decide (x < length row)
      then Ok (mkImage (im_size im) (<[y := <[x := v]> row]> (im_rows im)))
      else Raise IndexError
  | None => Raise IndexError
  end.

(** Pillow's conversion of a fill color to the pixel value of an RGBA image:
    a tuple of three or four ints, each clipped to [0, 255] (alpha defaults
    to 255); a one-element tuple is read as a packed integer; ints that do
    not fit the C types raise. *)
Definition CLIP8 (v : Z) : Z :=
  if (v <? 0)%Z then 0%Z else if (255 <? v)%Z then 255%Z else v.

Definition fits (bits : Z) (v : Z) : bool :=
  (- 2 ^ (bits - 1) <=? v)%Z && (v <? 2 ^ (bits - 1))%Z.

Definition getink (color : Color) : res Color :=
  match color with
  | [v] =>
      if fits 64 v
      then Ok [Z.land v 255; Z.land (Z.shiftr v 8) 255;
               Z.land (Z.shiftr v 16) 255; Z.land (Z.shiftr v 24) 255]
      else Raise OverflowError
  | [r; g; b] =>
      if fits 64 r && fits 32 g && fits 32 b
      then Ok [CLIP8 r; CLIP8 g; CLIP8 b; 255%Z]
      else Raise OverflowError
  | [r; g; b; a] =>
      if fits 64 r && fits 32 g && fits 32 b && fits 32 a
      then Ok [CLIP8 r; CLIP8 g; CLIP8 b; CLIP8 a]
      else Raise OverflowError
  | _ => Raise TypeError
  end.

(** [ImageDraw.Draw(im).rectangle((x0, y0, x1, y1), fill=color, outline=None)]:
    every pixel of the image with [x0 <= x <= x1] and [y0 <= y <= y1] takes
    the fill color; the box is clipped to the image. *)
Definition in_box (box : nat * nat * nat * nat) (x y : nat) : bool :=
  let '(x0, y0, x1, y1) := box in
  (x0 <=? x) && (x <=? x1) && (y0 <=? y) && (y <=? y1).

Definition draw_rectangle (im : Image) (box : nat * nat * nat * nat)
    (fill : Color) : res Image :=
  ink ← getink fill;
  Ok (mkImage (im_size im)
        (imap (λ y row, imap (λ x c, if in_box box x y then ink else c) row)
              (im_rows im))).

(** [ImageDraw.Draw(im).text(xy, text, fill=color)]: the glyphs come from
    Pillow's default font, which is outside this program; the painter is a
    parameter of the functions that draw text. *)
Definition TextPainter : Type := Image → nat * nat → string → Color → Image.

(** ** Python builtins used on strings *)

(** The blanks that [int] skips around a literal: the space and the
    characters from tab to carriage return (codes 9 to 13) and, among the
    other code points below 256, the two that count as whitespace, U+0085
    and U+00A0. The separators with the codes 28 to 31 are not skipped:
    [int] rejects a literal next to one of them. *)
Definition is_space (c : ascii) : bool :=
  let n := nat_of_ascii c in
  (n =? 32) || ((9 <=? n) && (n <=? 13)) || (n =? 133) || (n =? 160).

Definition digit_of (c : ascii) : option Z :=
  let n := nat_of_ascii c in
  if (48 <=? n) && (n <=? 57) then Some (Z.of_nat (n - 48)) else None.

(** Decimal digits, with single underscores allowed between digits. *)
Fixpoint digits_value (acc : Z) (after_digit : bool) (s : list ascii) : option Z :=
  match s with
  | [] => if after_digit then Some acc else None
  | c :: s' =>
      match digit_of c with
      | Some d => digits_value (10 * acc + d)%Z true s'
      | None =>
          if decide (c = "_"%char)
          then if after_digit then digits_value acc false s' else None
          else None
      end
  end.

Fixpoint lstrip (s : list ascii) : list ascii :=
  match s with
  | c :: s' => if is_space c then lstrip s' else s
  | [] => []
  end.

Definition strip (s : list ascii) : list ascii :=
  reverse (lstrip (reverse (lstrip s))).

(** [int(s)] for a string [s]: the value, or [None] where Python raises
    [ValueError]. The cap on the number of digits of a literal (4300 by
    default from CPython 3.11 on, an interpreter setting) is not part of
    the function: it is [int] on the literals of at most 4300 digits, and
    on every literal where the cap is off. *)
Definition py_int (s : string) : option Z :=
  match strip (list_ascii_of_string s) with
  | "+"%char :: ds => digits_value 0 false ds
  | "-"%char :: ds => Z.opp <$> digits_value 0 false ds
  | ds => digits_value 0 false ds
  end.

(** [s.split(sep)] for a one-character separator. *)
Fixpoint split (sep : ascii) (s : string) : list string :=
  match s with
  | EmptyString => [EmptyString]
  | String c s' =>
      if decide (c = sep) then EmptyString :: split sep s'
      else match split sep s' with
           | piece :: pieces => String c piece :: pieces
           | [] => [String c EmptyString]
           end
  end.

(** [floor(a / b)] for non-negative ints [a] and [b]: the true division
    raises on a zero divisor; on these operands the floor of the float
    quotient is the integer quotient. *)
Definition floor_div (a b : nat) : res nat :=
  if decide (b = 0) then Raise ZeroDivisionError else Ok (a / b).

(** ** The program *)

(** [get_im_data(image)] *)
Definition get_im_data (image : Image) : list Color :=
  fold_left
    (λ colors_present color,
       if decide (color ∈ colors_present) then colors_present
       else colors_present ++ [color])
    (getdata image) [].

Definition palette_size : nat * nat := (300, 200).

(** [make_palette(base, color_list, disp_text)]; an argument left at its
    default is [None]. *)
Definition make_palette (text : TextPainter) (base : option Image)
    (color_list : option (list Color)) (disp_text : option string) : res Image :=
  base ← match base, color_list with
         | Some base, _ => Ok base
         | None, Some color_list =>
             Ok (Image_new (length color_list, 1) [255; 255; 255; 0]%Z)
         | None, None => Raise TypeError
         end;
  let color_list := default (get_im_data base) color_list in
  let palette_image := Image_new palette_size [0; 0; 0; 0]%Z in
  let num_cols := length color_list in
  col_width ← floor_div (fst palette_size) num_cols;
  '(palette_image, right_shift) ←
    foldM (λ '(palette_image, right_shift) color,
             palette_image ←
               draw_rectangle palette_image
                 (col_width * right_shift, 0,
                  col_width * (right_shift + 1), snd palette_size)
                 color;
             Ok (palette_image, right_shift + 1))
          (palette_image, 0) color_list;
  match disp_text with
  | Some disp_text =>
      if decide (disp_text = EmptyString) then Ok palette_image
      else Ok (text palette_image (0, 0) disp_text [255; 255; 255; 255]%Z)
  | None => Ok palette_image
  end.

(** [load_palette_file(file_location)]; the file is given by the lines that
    iterating over it yields. *)
Definition load_palette_file (text : TextPainter) (file : list string) : res Image :=
  colors ←
    foldM (λ colors entry,
             let line := split ","%char entry in
             entry ← foldM (λ entry val,
                              match py_int val with
                              | Some n => Ok (entry ++ [n])
                              | None => Raise (ValueError val)
                              end)
                           [] line;
             Ok (colors ++ [entry]))
          [] file;
  make_palette text None (Some colors) (Some "new palette"%string).

(** [get_color_map(old_colors, new_colors)] *)
Definition get_color_map (old_colors new_colors : list Color)
    : res (gmap Color Color) :=
  let max_colors := length old_colors in
  foldM (λ color_map i,
           if (Z.of_nat i >? Z.of_nat (length new_colors) - 1)%Z then
             old ← index old_colors i;
             Ok (<[old := old]> color_map)
           else
             new ← index new_colors i;
             old ← index old_colors i;
             Ok (<[old := new]> color_map))
        ∅ (seq 0 max_colors).

(** The two nested loops of [swap_colors]: every pixel of [new_image] is
    written with the color the dictionary holds for the pixel of [original]
    at the same coordinates. *)
Definition swap_pixels (original : Image) (color_map : gmap Color Color)
    (new_image : Image) : res Image :=
  foldM (λ new_image x_coord,
           foldM (λ new_image y_coord,
                    old ← getpixel original x_coord y_coord;
                    new ← getitem color_map old;
                    putpixel new_image x_coord y_coord new)
                 new_image (seq 0 (height new_image)))
        new_image (seq 0 (width new_image)).

(** [swap_colors(original, palette)] *)
Definition swap_colors (text : TextPainter) (original palette : Image) : res Image :=
  old_pal ← make_palette text (Some original) None None;
  let old_colors := get_im_data old_pal in
  let new_colors := get_im_data palette in
  let new_image := Image_new (im_size original) [255; 255; 255; 0]%Z in
  color_map ← get_color_map old_colors new_colors;
  swap_pixels original color_map new_image.

(** ** Auxiliary definitions for the proofs *)

(** The loop body of [get_im_data] and the loop itself, on a list of pixels. *)
Local Abbreviation catalog_step :=
  (λ (colors_present : list Color) (color : Color),
     if decide (color ∈ colors_present) then colors_present
     else colors_present ++ [color]).

Local Abbreviation catalog l := (fold_left catalog_step l []).

(** The loop body of [get_color_map]. *)
Local Abbreviation color_map_step old_colors new_colors :=
  (λ (color_map : gmap Color Color) (i : nat),
     if Z.gtb (Z.of_nat i) (Z.sub (Z.of_nat (length new_colors)) 1%Z) then
       old ← index old_colors i;
       Ok (<[old := old]> color_map)
     else
       new ← index new_colors i;
       old ← index old_colors i;
       Ok (<[old := new]> color_map)).

(** A row of pixels after a rectangle that spans it from column [x0] to
    column [x1] has been drawn in [ink]. *)
Definition paint_row (x0 x1 : nat) (ink : Color) (row : list Color) : list Color :=
  imap (λ x c, if (x0 <=? x) && (x <=? x1) then ink else c) row.

(** A row of the palette image after the strips of [colors] have been drawn
    over [row], the first of them at position [right_shift]. *)
Fixpoint strips (col_width right_shift : nat) (colors : list Color)
    (row : list Color) : list Color :=
  match colors with
  | [] => row
  | color :: colors' =>
      strips col_width (right_shift + 1) colors'
        (paint_row (col_width * right_shift) (col_width * (right_shift + 1))
                   color row)
  end.

(** Transparent black, the color of the pixels of a new palette image. *)
Local Abbreviation transparent := ([0; 0; 0; 0]%Z : Color).

(** The palette image that [swap_colors] draws of an RGBA original that has
    pixels (lemma [make_palette_of_image]). *)
Local Abbreviation old_palette original :=
  (mkImage palette_size
     (replicate 200
        (strips (300 / length (get_im_data original)) 0
                (get_im_data original) (replicate 300 transparent)))).

(** The colors that a line of a palette file stands for when every field of
    the line is an integer literal. *)
Definition parse_entry (entry : string) : option Color :=
  mapM py_int (split ","%char entry).

(** [",".join(str(v) for v in color) + "\n"]: a color written as a line
    of a palette file. *)
Definition palette_line (color : Color) : string :=
  String.concat "," (pretty <$> color) +:+ String "010"%char EmptyString.

(** ** Sample data *)

Definition red : Color := [255; 0; 0; 255]%Z.
Definition green : Color := [0; 255; 0; 255]%Z.
Definition blue : Color := [0; 0; 255; 255]%Z.
Definition white : Color := [255; 255; 255; 255]%Z.

(** A 2x2 image: red and green on the first row, red and blue below. *)
Definition sample_image : Image := mkImage (2, 2) [[red; green]; [red; blue]].

Definition sample_map : gmap Color Color :=
  list_to_map [(red, blue); (green, green); (blue, red)].

(** A 301x1 image whose pixels all differ: pixel [k] is
    [(k % 256, k // 256, 0, 255)]. *)
Definition image_301_colors : Image :=
  mkImage (301, 1)
    [(λ k, [k `mod` 256; k `div` 256; 0; 255]%Z) <$> seqZ 0 301].

(** * Properties *)

(** ** Loops *)


Lemma foldM_app {A B : Type} (f : B → A → res B) (b : B) (l1 l2 : list A) :
  foldM f b (l1 ++ l2) = b' ← foldM f b l1; foldM f b' l2.
Proof.
  revert b. induction l1 as [|x l1 IH]; intros b; simpl; [done|].
  destruct (f b x) as [b'|e]; simpl; [apply IH|done].
Qed.

Lemma foldM_ext_in {A B : Type} (f g : B → A → res B) (b : B) (l : list A) :
  (∀ b x, x ∈ l → f b x = g b x) → foldM f b l = foldM g b l.
Proof.
  revert b. induction l as [|x l IH]; intros b Hfg; simpl; [done|].
  rewrite Hfg by left. destruct (g b x) as [b'|e]; simpl; [|done].
  apply IH. intros b0 x0 Hx0. apply Hfg. by right.
Qed.

(** The invariant rule for a loop over [range(n)]: the invariant holds of
    the state on every normal exit, and [Bad] of every exception. *)
Lemma foldM_range_from {B : Type} (f : B → nat → res B)
    (Inv : nat → B → Prop) (Bad : exn → Prop) (s n : nat) (b : B) :
  Inv s b →
  (∀ i b, s ≤ i < s + n → Inv i b →
     match f b i with Ok b' => Inv (S i) b' | Raise e => Bad e end) →
  match foldM f b (seq s n) with Ok b' => Inv (s + n) b' | Raise e => Bad e end.
Proof.
  revert s b. induction n as [|n IH]; intros s b Hb Hstep; simpl.
  - by rewrite Nat.add_0_r.
  - pose proof (Hstep s b ltac:(lia) Hb) as Hs.
    destruct (f b s) as [b'|e]; simpl; [|done].
    replace (s + S n) with (S s + n) by lia.
    apply IH; [done|]. intros i b0 Hi. apply Hstep. lia.
Qed.

Lemma foldM_range {B : Type} (f : B → nat → res B)
    (Inv : nat → B → Prop) (Bad : exn → Prop) (n : nat) (b : B) :
  Inv 0 b →
  (∀ i b, i < n → Inv i b →
     match f b i with Ok b' => Inv (S i) b' | Raise e => Bad e end) →
  match foldM f b (seq 0 n) with Ok b' => Inv n b' | Raise e => Bad e end.
Proof.
  intros Hb Hstep. apply (foldM_range_from f Inv Bad 0 n b Hb).
  intros i b0 Hi. apply Hstep. lia.
Qed.

(** ** The catalog of an image: [get_im_data] *)

Lemma catalog_snoc (l : list Color) (c : Color) :
  catalog (l ++ [c]) =
    if decide (c ∈ catalog l) then catalog l else catalog l ++ [c].
Proof. by rewrite fold_left_app. Qed.

Lemma elem_of_catalog (l : list Color) (c : Color) :
  c ∈ catalog l ↔ c ∈ l.
Proof.
  induction l as [|d l IH] using rev_ind; [done|].
  rewrite catalog_snoc. destruct (decide (d ∈ catalog l)) as [Hd|Hd].
  - rewrite elem_of_app, list_elem_of_singleton, IH.
    split; [tauto|]. intros [?| ->]; [done|]. by apply IH.
  - by rewrite !elem_of_app, IH.
Qed.

Lemma NoDup_catalog (l : list Color) : NoDup (catalog l).
Proof.
  induction l as [|d l IH] using rev_ind; [constructor|].
  rewrite catalog_snoc. destruct (decide (d ∈ catalog l)) as [Hd|Hd]; [done|].
  apply NoDup_app. split_and!; [done| |apply NoDup_singleton].
  intros c Hc ->%list_elem_of_singleton. done.
Qed.

Lemma length_catalog (l : list Color) : length (catalog l) ≤ length l.
Proof.
  induction l as [|d l IH] using rev_ind; [done|].
  rewrite catalog_snoc, length_app. simpl.
  destruct (decide (d ∈ catalog l)); [lia|]. rewrite length_app. simpl. lia.
Qed.

(** A color listed before another one occurs in the traversal before every
    occurrence of the other. *)
Lemma catalog_order (l : list Color) (i j : nat) (c d : Color) :
  i < j → catalog l !! i = Some c → catalog l !! j = Some d →
  ∃ p, l !! p = Some c ∧ ∀ q, q ≤ p → l !! q ≠ Some d.
Proof.
  revert i j c d. induction l as [|e l IH] using rev_ind; intros i j c d Hij Hi Hj.
  { done. }
  rewrite catalog_snoc in Hi, Hj.
  assert (Hweak : ∀ p, l !! p = Some c → (∀ q, q ≤ p → l !! q ≠ Some d) →
            ∃ p, (l ++ [e]) !! p = Some c ∧ ∀ q, q ≤ p → (l ++ [e]) !! q ≠ Some d).
  { intros p Hp Hq. exists p. pose proof (lookup_lt_Some _ _ _ Hp) as Hlt.
    split; [by rewrite lookup_app_l|].
    intros q Hqp. rewrite lookup_app_l by lia. by apply Hq. }
  destruct (decide (e ∈ catalog l)) as [He|He].
  { destruct (IH i j c d Hij Hi Hj) as (p & Hp & Hq). by apply (Hweak p). }
  destruct (decide (j < length (catalog l))) as [Hjl|Hjl].
  { rewrite lookup_app_l in Hi, Hj by lia.
    destruct (IH i j c d Hij Hi Hj) as (p & Hp & Hq). by apply (Hweak p). }
  pose proof (lookup_lt_Some _ _ _ Hj) as Hjlt.
  rewrite length_app in Hjlt. simpl in Hjlt.
  assert (j = length (catalog l)) as -> by lia.
  rewrite lookup_app_l in Hi by lia.
  rewrite list_lookup_middle in Hj by done. injection Hj as <-.
  assert (c ∈ l) as Hc.
  { apply elem_of_catalog. by eapply list_elem_of_lookup_2. }
  apply list_elem_of_lookup_1 in Hc as [p Hp].
  apply (Hweak p Hp). intros q _ Hq.
  apply He, elem_of_catalog. by eapply list_elem_of_lookup_2.
Qed.

(** ** Images *)

Lemma wf_image_row (im : Image) (y : nat) (row : list Color) :
  wf_image im → im_rows im !! y = Some row → length row = width im.
Proof.
  intros [_ Hrows] Hy. rewrite Forall_forall in Hrows.
  apply Hrows. by eapply list_elem_of_lookup_2.
Qed.

Lemma getpixel_Ok (im : Image) (x y : nat) :
  wf_image im → x < width im → y < height im →
  ∃ row c, im_rows im !! y = Some row ∧ row !! x = Some c ∧
           getpixel im x y = Ok c.
Proof.
  intros Hwf Hx Hy. pose proof Hwf as [Hlen _].
  destruct (lookup_lt_is_Some_2 (im_rows im) y) as [row Hrow]; [lia|].
  pose proof (wf_image_row im y row Hwf Hrow) as Hw.
  destruct (lookup_lt_is_Some_2 row x) as [c Hc]; [lia|].
  exists row, c. unfold getpixel, index. by rewrite Hrow, Hc.
Qed.

Lemma getpixel_Ok_inv (im : Image) (x y : nat) (c : Color) :
  wf_image im → getpixel im x y = Ok c →
  x < width im ∧ y < height im ∧
  ∃ row, im_rows im !! y = Some row ∧ row !! x = Some c.
Proof.
  intros Hwf Hpix. unfold getpixel, index in Hpix.
  destruct (im_rows im !! y) as [row|] eqn:Hrow; [|done].
  destruct (row !! x) as [c'|] eqn:Hc; [|done]. injection Hpix as ->.
  pose proof (wf_image_row im y row Hwf Hrow) as Hw.
  pose proof (lookup_lt_Some _ _ _ Hrow) as Hy.
  pose proof (lookup_lt_Some _ _ _ Hc) as Hx.
  destruct Hwf as [Hlen _]. split_and!; [lia|lia|by exists row].
Qed.

Lemma concat_lookup_uniform {A : Type} (w : nat) (rows : list (list A))
    (x y : nat) (row : list A) :
  Forall (λ row, length row = w) rows →
  rows !! y = Some row → x < w →
  concat rows !! (y * w + x) = row !! x.
Proof.
  intros Hrows. revert y.
  induction Hrows as [|r rows Hr _ IH]; intros y Hy Hx; [done|].
  destruct y as [|y]; simpl in *.
  - injection Hy as ->. by rewrite lookup_app_l by lia.
  - rewrite lookup_app_r by lia.
    replace (w + y * w + x - length r) with (y * w + x) by lia. by apply IH.
Qed.

Lemma elem_of_concat {A : Type} (rows : list (list A)) (a : A) :
  a ∈ concat rows ↔ ∃ y row x, rows !! y = Some row ∧ row !! x = Some a.
Proof.
  induction rows as [|r rows IH]; simpl.
  - split; [by intros ?%elem_of_nil|by intros (y & row & x & ? & _)].
  - rewrite elem_of_app, IH. split.
    + intros [Ha|(y & row & x & Hy & Hx)].
      * apply list_elem_of_lookup_1 in Ha as [x Hx]. by exists 0, r, x.
      * by exists (S y), row, x.
    + intros ([|y] & row & x & Hy & Hx); simpl in Hy.
      * injection Hy as ->. left. by eapply list_elem_of_lookup_2.
      * right. by exists y, row, x.
Qed.

(** [getdata] is the row-major traversal: the pixel at [(x, y)] comes at
    position [y * width + x]. *)
Lemma getdata_row_major (im : Image) (x y : nat) :
  wf_image im → x < width im → y < height im →
  ∃ c, getpixel im x y = Ok c ∧ getdata im !! (y * width im + x) = Some c.
Proof.
  intros Hwf Hx Hy.
  destruct (getpixel_Ok im x y Hwf Hx Hy) as (row & c & Hrow & Hc & Hpix).
  exists c. split; [done|]. unfold getdata.
  rewrite (concat_lookup_uniform (width im) _ x y row); [done|apply Hwf|done|done].
Qed.

Lemma elem_of_getdata (im : Image) (c : Color) :
  wf_image im →
  c ∈ getdata im ↔ ∃ x y, x < width im ∧ y < height im ∧ getpixel im x y = Ok c.
Proof.
  intros Hwf. unfold getdata. rewrite elem_of_concat. split.
  - intros (y & row & x & Hy & Hx). exists x, y.
    pose proof (wf_image_row im y row Hwf Hy) as Hw.
    pose proof (lookup_lt_Some _ _ _ Hy) as Hylt.
    pose proof (lookup_lt_Some _ _ _ Hx) as Hxlt.
    destruct Hwf as [Hlen _]. split_and!; [lia|lia|].
    unfold getpixel, index. by rewrite Hy, Hx.
  - intros (x & y & _ & _ & Hpix).
    apply getpixel_Ok_inv in Hpix as (_ & _ & row & Hy & Hx); [|done].
    by exists y, row, x.
Qed.

Lemma length_getdata (im : Image) :
  wf_image im → length (getdata im) = width im * height im.
Proof.
  intros [Hlen Hrows]. unfold getdata. rewrite <- Hlen. clear Hlen.
  induction Hrows as [|r rows Hr _ IH]; simpl; [lia|].
  rewrite length_app, IH, Hr. lia.
Qed.

Lemma image_eq (a b : Image) :
  wf_image a → wf_image b → im_size a = im_size b →
  (∀ x y, x < width a → y < height a → getpixel a x y = getpixel b x y) →
  a = b.
Proof.
  intros Ha Hb Hsize Hpix. destruct a as [sa ra], b as [sb rb].
  simpl in Hsize. subst sb. f_equal.
  pose proof Ha as [Hla _]. pose proof Hb as [Hlb _].
  unfold width, height in *. simpl in *.
  apply list_eq_same_length with (snd sa); [done|done|].
  intros y rowa rowb Hy Hrowa Hrowb.
  pose proof (wf_image_row _ y rowa Ha Hrowa) as Hwa.
  pose proof (wf_image_row _ y rowb Hb Hrowb) as Hwb.
  unfold width in *. simpl in *.
  apply list_eq_same_length with (fst sa); [done|done|].
  intros x ca cb Hx Hca Hcb.
  specialize (Hpix x y Hx Hy). unfold getpixel, index in Hpix. simpl in Hpix.
  rewrite Hrowa, Hrowb, Hca, Hcb in Hpix. by injection Hpix.
Qed.

Lemma wf_Image_new (size : nat * nat) (color : Color) :
  wf_image (Image_new size color).
Proof.
  split; simpl.
  - by rewrite length_replicate.
  - apply Forall_replicate. by rewrite length_replicate.
Qed.

Lemma get_im_data_empty (image : Image) :
  getdata image = [] → get_im_data image = [].
Proof. unfold get_im_data. by intros ->. Qed.

(** C3. For every pixel buffer, the sequence returned by [get_im_data] has no
    repeated color, is at most as long as the number of pixels, holds exactly
    the colors of the buffer's pixels, and lists them in the order of their
    first occurrence in the row-major traversal (a color listed before
    another one is the color of a pixel that comes before every pixel of the
    other color, position [y * width + x] being the rank of pixel [(x, y)]);
    a buffer without pixels gives the empty sequence. *)
Theorem get_im_data_first_occurrence_order (image : Image) :
  wf_image image →
  NoDup (get_im_data image) ∧
  length (get_im_data image) ≤ width image * height image ∧
  (∀ c, c ∈ get_im_data image ↔
        ∃ x y, x < width image ∧ y < height image ∧ getpixel image x y = Ok c) ∧
  (∀ i j c d,
     i < j → get_im_data image !! i = Some c → get_im_data image !! j = Some d →
     ∃ x y, x < width image ∧ y < height image ∧ getpixel image x y = Ok c ∧
       ∀ x' y', x' < width image → y' < height image →
         y' * width image + x' ≤ y * width image + x →
         getpixel image x' y' ≠ Ok d) ∧
  (width image * height image = 0 → get_im_data image = []).
Proof.
  intros Hwf. pose proof (length_getdata image Hwf) as Hlen.
  unfold get_im_data. split_and!.
  - apply NoDup_catalog.
  - rewrite <- Hlen. apply length_catalog.
  - intros c. rewrite elem_of_catalog. by apply elem_of_getdata.
  - intros i j c d Hij Hi Hj.
    destruct (catalog_order _ i j c d Hij Hi Hj) as (p & Hp & Hbefore).
    pose proof (lookup_lt_Some _ _ _ Hp) as Hplt. rewrite Hlen in Hplt.
    assert (0 < width image) as Hw by nia.
    pose proof (Nat.div_mod_eq p (width image)) as Hdm.
    pose proof (Nat.mod_upper_bound p (width image) ltac:(lia)) as Hmod.
    assert (p `div` width image < height image) as Hdiv.
    { apply Nat.Div0.div_lt_upper_bound. lia. }
    exists (p `mod` width image), (p `div` width image).
    destruct (getdata_row_major image _ _ Hwf Hmod Hdiv) as (c' & Hpix & Hdata).
    replace (p `div` width image * width image + p `mod` width image)
      with p in * by lia.
    rewrite Hp in Hdata. injection Hdata as <-.
    split_and!; [done|done|done|].
    intros x' y' Hx' Hy' Hle Hd.
    destruct (getdata_row_major image _ _ Hwf Hx' Hy') as (d' & Hpix' & Hdata').
    rewrite Hd in Hpix'. injection Hpix' as <-.
    by apply (Hbefore (y' * width image + x')).
  - intros Hzero. apply get_im_data_empty, nil_length_inv. lia.
Qed.

(** ** The dictionary of [get_color_map] *)

(** One iteration: the source color at [i] is bound to the destination
    color at [i], or to itself when the destination list is too short. *)
Lemma color_map_step_Ok (old_colors new_colors : list Color)
    (color_map : gmap Color Color) (i : nat) (c : Color) :
  old_colors !! i = Some c →
  color_map_step old_colors new_colors color_map i =
    Ok (<[c := default c (new_colors !! i)]> color_map).
Proof.
  intros Hc. unfold index. rewrite Hc. simpl.
  destruct (Z.gtb_spec (Z.of_nat i) (Z.of_nat (length new_colors) - 1)) as [Hgt|Hle].
  - rewrite (lookup_ge_None_2 new_colors i) by lia. done.
  - destruct (lookup_lt_is_Some_2 new_colors i) as [v Hv]; [lia|].
    by rewrite Hv.
Qed.

(** The loop of [get_color_map] never raises; its dictionary has the source
    colors as keys and binds each of them as the last iteration on that
    color did. *)
Lemma get_color_map_spec (old_colors new_colors : list Color) :
  ∃ color_map,
    get_color_map old_colors new_colors = Ok color_map ∧
    dom color_map = list_to_set old_colors ∧
    ∀ j c, old_colors !! j = Some c →
           (∀ k, j < k → old_colors !! k ≠ Some c) →
           color_map !! c = Some (default c (new_colors !! j)).
Proof.
  set (Inv := λ (n : nat) (m : gmap Color Color),
    dom m = list_to_set (take n old_colors) ∧
    ∀ j c, j < n → old_colors !! j = Some c →
           (∀ k, j < k < n → old_colors !! k ≠ Some c) →
           m !! c = Some (default c (new_colors !! j))).
  assert (Inv 0 ∅) as Hinit.
  { split; [by rewrite dom_empty_L|]. intros j c Hj. lia. }
  assert (∀ i m, i < length old_colors → Inv i m →
            match color_map_step old_colors new_colors m i with
            | Ok m' => Inv (S i) m'
            | Raise _ => False
            end) as Hstep.
  { intros i m Hi [Hdom Hlast].
    destruct (lookup_lt_is_Some_2 old_colors i Hi) as [c Hc].
    rewrite (color_map_step_Ok _ _ _ _ _ Hc). split.
    - rewrite dom_insert_L, Hdom, (take_S_r _ _ _ Hc), list_to_set_app_L.
      simpl. rewrite (right_id_L ∅ (∪)). apply (comm_L (∪)).
    - intros j d Hj Hd Hafter. destruct (decide (j = i)) as [->|Hne].
      + rewrite Hc in Hd. injection Hd as ->. by rewrite lookup_insert_eq.
      + rewrite lookup_insert_ne.
        * apply Hlast; [lia|done|]. intros k Hk. apply Hafter. lia.
        * intros ->. by apply (Hafter i ltac:(lia)). }
  pose proof (foldM_range _ Inv (λ _, False) _ ∅ Hinit Hstep) as Hloop.
  unfold get_color_map.
  destruct (foldM _ ∅ (seq 0 (length old_colors))) as [m|e]; [|done].
  destruct Hloop as [Hdom Hlast]. exists m. split_and!; [done| |].
  - by rewrite Hdom, firstn_all.
  - intros j c Hj Hafter. pose proof (lookup_lt_Some _ _ _ Hj).
    apply Hlast; [done|done|]. intros k Hk. apply Hafter. lia.
Qed.

Lemma last_occurrence (l : list Color) (c : Color) :
  c ∈ l → ∃ j, l !! j = Some c ∧ ∀ k, j < k → l !! k ≠ Some c.
Proof.
  induction l as [|d l IH] using rev_ind; [by intros ?%elem_of_nil|].
  intros Hc. destruct (decide (d = c)) as [->|Hne].
  - exists (length l). split; [by apply list_lookup_middle|].
    intros k Hk. rewrite lookup_ge_None_2; [done|].
    rewrite length_app. simpl. lia.
  - apply elem_of_app in Hc as [Hc|Hc%list_elem_of_singleton]; [|done].
    destruct (IH Hc) as (j & Hj & Hafter). exists j.
    pose proof (lookup_lt_Some _ _ _ Hj).
    split; [by rewrite lookup_app_l|].
    intros k Hk. destruct (decide (k < length l)).
    + rewrite lookup_app_l by done. by apply Hafter.
    + destruct (decide (k = length l)) as [->|].
      * rewrite list_lookup_middle by done. congruence.
      * rewrite lookup_ge_None_2; [done|]. rewrite length_app. simpl. lia.
Qed.

(** Destination colors from index [len(old_colors)] on are never read. *)
Lemma get_color_map_surplus (old_colors new_colors : list Color) :
  get_color_map old_colors (take (length old_colors) new_colors) =
  get_color_map old_colors new_colors.
Proof.
  unfold get_color_map. apply foldM_ext_in. intros m i Hi.
  apply elem_of_seq in Hi as [_ Hi]. simpl in Hi.
  destruct (lookup_lt_is_Some_2 old_colors i Hi) as [c Hc].
  rewrite !(color_map_step_Ok _ _ _ _ _ Hc).
  by rewrite lookup_take_lt.
Qed.

(** C1 (as amended). For every pair of color lists, [get_color_map] returns
    a dictionary that sends the source color at index [i] to the destination
    color at index [i] for every [i < min(len(old_colors), len(new_colors))]
    at which the source color does not occur again at a later index, sends
    every source color at an index [i >= len(new_colors)] to itself, and does
    not depend on the destination colors at indices [>= len(old_colors)]. *)
Theorem get_color_map_positional (old_colors new_colors : list Color) :
  ∃ color_map,
    get_color_map old_colors new_colors = Ok color_map ∧
    (∀ i c, old_colors !! i = Some c → i < length new_colors →
            (∀ k, i < k → old_colors !! k ≠ Some c) →
            color_map !! c = new_colors !! i) ∧
    (∀ i c, old_colors !! i = Some c → length new_colors ≤ i →
            color_map !! c = Some c) ∧
    (∀ new_colors',
       take (length old_colors) new_colors' =
         take (length old_colors) new_colors →
       get_color_map old_colors new_colors' = Ok color_map).
Proof.
  destruct (get_color_map_spec old_colors new_colors) as (m & Hm & _ & Hlast).
  exists m. split_and!; [done| | |].
  - intros i c Hi Hlt Hafter. rewrite (Hlast i c Hi Hafter).
    destruct (lookup_lt_is_Some_2 new_colors i Hlt) as [v Hv]. by rewrite Hv.
  - intros i c Hi Hge.
    destruct (last_occurrence old_colors c) as (j & Hj & Hafter).
    { by eapply list_elem_of_lookup_2. }
    rewrite (Hlast j c Hj Hafter).
    destruct (decide (j < i)) as [Hji|Hji].
    { by destruct (Hafter i Hji). }
    by rewrite (lookup_ge_None_2 new_colors j) by lia.
  - intros new_colors' Htake.
    by rewrite <- get_color_map_surplus, Htake, get_color_map_surplus.
Qed.

(** C2. For every pair of color lists, the key set of the dictionary that
    [get_color_map] returns is the set of the source colors: every source
    color has an entry and no other key is present. *)
Theorem get_color_map_keys (source_colors dest_colors : list Color) :
  ∃ color_map,
    get_color_map source_colors dest_colors = Ok color_map ∧
    dom color_map = list_to_set source_colors ∧
    (∀ c, is_Some (color_map !! c) ↔ c ∈ source_colors).
Proof.
  destruct (get_color_map_spec source_colors dest_colors) as (m & Hm & Hdom & _).
  exists m. split_and!; [done|done|].
  intros c. by rewrite <- elem_of_dom, Hdom, elem_of_list_to_set.
Qed.

(** C10 (as amended). If [old_colors] holds the same color at two indices
    [i < j], and [j] is the largest index at which the color occurs, the
    dictionary of [get_color_map] gives that color the value of the
    iteration at [j]: the destination color at [j], or the color itself when
    [j >= len(new_colors)]. *)
Theorem get_color_map_last_pairing_wins
    (old_colors new_colors : list Color) (i j : nat) (c : Color) :
  i < j → old_colors !! i = Some c → old_colors !! j = Some c →
  (∀ k, j < k → old_colors !! k ≠ Some c) →
  ∃ color_map,
    get_color_map old_colors new_colors = Ok color_map ∧
    color_map !! c = Some (default c (new_colors !! j)).
Proof.
  intros _ _ Hj Hafter.
  destruct (get_color_map_spec old_colors new_colors) as (m & Hm & _ & Hlast).
  exists m. split; [done|]. by apply Hlast.
Qed.

(** ** The transform step: the loops of [swap_colors] *)

Lemma putpixel_Ok (im : Image) (x y : nat) (v : Color) :
  wf_image im → x < width im → y < height im →
  ∃ im', putpixel im x y v = Ok im' ∧
         wf_image im' ∧ im_size im' = im_size im ∧
         getpixel im' x y = Ok v ∧
         ∀ x' y', (x', y') ≠ (x, y) → getpixel im' x' y' = getpixel im x' y'.
Proof.
  intros Hwf Hx Hy.
  destruct (getpixel_Ok im x y Hwf Hx Hy) as (row & c & Hrow & Hc & _).
  pose proof (wf_image_row im y row Hwf Hrow) as Hw.
  pose proof (lookup_lt_Some _ _ _ Hrow) as Hylt.
  unfold putpixel. rewrite Hrow.
  destruct (decide (x < length row)) as [_|]; [|lia].
  eexists. split; [done|]. split_and!.
  - destruct Hwf as [Hlen Hrows]. split; simpl.
    + by rewrite length_insert.
    + apply Forall_insert; [done|]. by rewrite length_insert.
  - done.
  - unfold getpixel, index. simpl.
    rewrite list_lookup_insert_eq by done.
    by rewrite list_lookup_insert_eq by lia.
  - intros x' y' Hne. unfold getpixel. simpl.
    destruct (decide (y' = y)) as [->|Hy'].
    + rewrite list_lookup_insert_eq by done. rewrite Hrow. unfold index.
      rewrite list_lookup_insert_ne; [done|]. intros ->. done.
    + by rewrite list_lookup_insert_ne.
Qed.

(** What the loops establish: on a normal exit every pixel of the output is
    the dictionary's value for the pixel of the original at the same place;
    the only exception is the [KeyError] of a pixel color that is not a key. *)
Lemma swap_pixels_spec (original new_image : Image)
    (color_map : gmap Color Color) :
  wf_image original → wf_image new_image →
  im_size new_image = im_size original →
  match swap_pixels original color_map new_image with
  | Ok out =>
      wf_image out ∧ im_size out = im_size original ∧
      ∀ x y, x < width original → y < height original →
        ∃ c v, getpixel original x y = Ok c ∧ color_map !! c = Some v ∧
               getpixel out x y = Ok v
  | Raise e =>
      ∃ x y c, x < width original ∧ y < height original ∧
               getpixel original x y = Ok c ∧ color_map !! c = None ∧
               e = KeyError c
  end.
Proof.
  intros Horig Hnew Hsize.
  set (Mapped := λ (x y : nat) (im : Image),
    ∃ c v, getpixel original x y = Ok c ∧ color_map !! c = Some v ∧
           getpixel im x y = Ok v).
  set (Bad := λ e : exn,
    ∃ x y c, x < width original ∧ y < height original ∧
             getpixel original x y = Ok c ∧ color_map !! c = None ∧
             e = KeyError c).
  set (Done := λ (P : nat → nat → Prop) (im : Image),
    wf_image im ∧ im_size im = im_size original ∧
    ∀ x y, x < width original → y < height original → P x y → Mapped x y im).
  unfold swap_pixels.
  assert (width new_image = width original) as -> by (unfold width; by rewrite Hsize).
  pose proof (foldM_range
    (λ new_image x_coord,
       foldM (λ new_image y_coord,
                old ← getpixel original x_coord y_coord;
                new ← getitem color_map old;
                putpixel new_image x_coord y_coord new)
             new_image (seq 0 (height new_image)))
    (λ x im, Done (λ x' _, x' < x) im) Bad (width original) new_image) as Houter.
  simpl in Houter.
  match type of Houter with ?A → ?B → _ =>
    assert A as Hinit; [|assert B as Hstep; [|specialize (Houter Hinit Hstep)]]
  end.
  - split_and!; [done|done|]. intros x y _ _ Hx. lia.
  - intros x im Hx (Hwf & Him & Hdone).
    assert (height im = height original) as -> by (unfold height; by rewrite Him).
    pose proof (foldM_range
      (λ new_image y_coord,
         old ← getpixel original x y_coord;
         new ← getitem color_map old;
         putpixel new_image x y_coord new)
      (λ y im, Done (λ x' y', x' < x ∨ (x' = x ∧ y' < y)) im) Bad
      (height original) im) as Hinner.
    simpl in Hinner.
    match type of Hinner with ?A → ?B → _ =>
      assert A as Hinit'; [|assert B as Hstep'; [|specialize (Hinner Hinit' Hstep')]]
    end.
    + split_and!; [done|done|]. intros x' y' Hx' Hy' [Hlt|[_ Hlt]]; [|lia].
      by apply Hdone.
    + intros y im0 Hy (Hwf0 & Him0 & Hdone0).
      destruct (getpixel_Ok original x y Horig Hx Hy) as (_ & c & _ & _ & Hc).
      rewrite Hc. simpl. unfold getitem.
      destruct (color_map !! c) as [v|] eqn:Hv; simpl.
      * destruct (putpixel_Ok im0 x y v Hwf0) as (im' & -> & Hwf' & Him' & Hput & Hother).
        { unfold width. by rewrite Him0. }
        { unfold height. by rewrite Him0. }
        split_and!; [done|congruence|].
        intros x' y' Hx' Hy' Hcase.
        destruct (decide ((x', y') = (x, y))) as [[= -> ->]|Hne].
        { by exists c, v. }
        destruct (Hdone0 x' y' Hx' Hy') as (c' & v' & Hc' & Hv' & Hpix').
        { destruct Hcase as [?|[-> Hlt]]; [by left|]. right. split; [done|].
          destruct (decide (y' = y)) as [->|]; [done|lia]. }
        exists c', v'. split_and!; [done|done|]. by rewrite Hother.
      * by exists x, y, c.
    + destruct (foldM _ im (seq 0 (height original))) as [im'|e]; [|done].
      destruct Hinner as (Hwf' & Him' & Hdone').
      split_and!; [done|done|]. intros x' y' Hx' Hy' Hlt.
      apply Hdone'; [done|done|]. destruct (decide (x' = x)) as [->|]; [by right|left; lia].
  - destruct (foldM _ new_image (seq 0 (width original))) as [out|e]; [|done].
    destruct Houter as (Hwf' & Him' & Hdone').
    split_and!; [done|done|]. intros x y Hx Hy. by apply Hdone'.
Qed.

(** C4. If the transform step meets a pixel whose color is not a key of the
    dictionary, the call raises (the [KeyError] of such a color) and returns
    no image; the original pixel is never passed through. If every color
    that occurs is a key, the call returns the complete output image: an
    image of the size of the original in which every pixel holds the
    dictionary's value for the original pixel at the same place. *)
Theorem swap_pixels_unmapped_color (original : Image)
    (color_map : gmap Color Color) (fill : Color) :
  wf_image original →
  ((∃ c, c ∈ getdata original ∧ color_map !! c = None) →
   ∃ c, c ∈ getdata original ∧ color_map !! c = None ∧
        swap_pixels original color_map (Image_new (im_size original) fill) =
          Raise (KeyError c)) ∧
  ((∀ c, c ∈ getdata original → is_Some (color_map !! c)) →
   ∃ out, swap_pixels original color_map (Image_new (im_size original) fill) =
            Ok out ∧
          wf_image out ∧ im_size out = im_size original ∧
          ∀ x y, x < width original → y < height original →
            ∃ c v, getpixel original x y = Ok c ∧ color_map !! c = Some v ∧
                   getpixel out x y = Ok v).
Proof.
  intros Hwf.
  pose proof (swap_pixels_spec original (Image_new (im_size original) fill)
    color_map Hwf (wf_Image_new _ _) eq_refl) as Hspec.
  destruct (swap_pixels _ _ _) as [out|e]; split.
  - intros (c & Hc & Hnone). exfalso.
    apply (elem_of_getdata _ _ Hwf) in Hc as (x & y & Hx & Hy & Hpix).
    destruct Hspec as (_ & _ & Hmapped).
    destruct (Hmapped x y Hx Hy) as (c' & v & Hc' & Hv & _). congruence.
  - intros _. exists out. split; [done|exact Hspec].
  - intros _. destruct Hspec as (x & y & c & Hx & Hy & Hpix & Hnone & ->).
    exists c. split_and!; [|done|done].
    apply (elem_of_getdata _ _ Hwf). by exists x, y.
  - intros Hall. exfalso.
    destruct Hspec as (x & y & c & Hx & Hy & Hpix & Hnone & _).
    destruct (Hall c) as [v Hv]; [|congruence].
    apply (elem_of_getdata _ _ Hwf). by exists x, y.
Qed.

(** C7. Whenever the transform step succeeds, the output image has the
    width and the height of the source image, and its pixel at [(x, y)] is
    the dictionary's value for the source pixel at [(x, y)]. *)
Theorem swap_pixels_same_size_mapped_pixels (original out : Image)
    (color_map : gmap Color Color) (fill : Color) :
  wf_image original →
  swap_pixels original color_map (Image_new (im_size original) fill) = Ok out →
  width out = width original ∧ height out = height original ∧
  ∀ x y, x < width original → y < height original →
    ∃ c v, getpixel original x y = Ok c ∧ color_map !! c = Some v ∧
           getpixel out x y = Ok v.
Proof.
  intros Hwf Hout.
  pose proof (swap_pixels_spec original (Image_new (im_size original) fill)
    color_map Hwf (wf_Image_new _ _) eq_refl) as Hspec.
  rewrite Hout in Hspec. destruct Hspec as (_ & Hsize & Hmapped).
  unfold width, height. by rewrite Hsize.
Qed.

(** A dictionary that binds every color of the image to itself gives the
    image back. *)
Lemma swap_pixels_identity (buffer : Image) (color_map : gmap Color Color)
    (fill : Color) :
  wf_image buffer →
  (∀ c, c ∈ getdata buffer → color_map !! c = Some c) →
  swap_pixels buffer color_map (Image_new (im_size buffer) fill) = Ok buffer.
Proof.
  intros Hwf Hid.
  pose proof (swap_pixels_spec buffer (Image_new (im_size buffer) fill)
    color_map Hwf (wf_Image_new _ _) eq_refl) as Hspec.
  destruct (swap_pixels _ _ _) as [out|e].
  - destruct Hspec as (Hwf' & Hsize & Hmapped). f_equal.
    apply image_eq; [done|done|done|].
    intros x y Hx Hy.
    assert (x < width buffer) as Hx' by (unfold width in *; by rewrite <- Hsize).
    assert (y < height buffer) as Hy' by (unfold height in *; by rewrite <- Hsize).
    destruct (Hmapped x y Hx' Hy') as (c & v & Hc & Hv & Hpix).
    rewrite Hid in Hv.
    + congruence.
    + apply (elem_of_getdata _ _ Hwf). by exists x, y.
  - exfalso. destruct Hspec as (x & y & c & Hx & Hy & Hpix & Hnone & _).
    rewrite Hid in Hnone; [done|].
    apply (elem_of_getdata _ _ Hwf). by exists x, y.
Qed.

(** A dictionary built from one list on both sides binds every color of the
    list to itself. *)
Lemma get_color_map_same_list (colors : list Color) :
  ∃ color_map,
    get_color_map colors colors = Ok color_map ∧
    ∀ c, c ∈ colors → color_map !! c = Some c.
Proof.
  destruct (get_color_map_spec colors colors) as (m & Hm & _ & Hlast).
  exists m. split; [done|]. intros c Hc.
  destruct (last_occurrence _ c Hc) as (j & Hj & Hafter).
  by rewrite (Hlast j c Hj Hafter), Hj.
Qed.

(** C8. For every pixel buffer, the dictionary built from the buffer's own
    catalog on both sides sends the transform step back to the buffer
    itself, pixel for pixel. *)
Theorem swap_pixels_round_trip (buffer : Image) (fill : Color) :
  wf_image buffer →
  ∃ color_map,
    get_color_map (get_im_data buffer) (get_im_data buffer) = Ok color_map ∧
    swap_pixels buffer color_map (Image_new (im_size buffer) fill) = Ok buffer.
Proof.
  intros Hwf.
  destruct (get_color_map_same_list (get_im_data buffer)) as (m & Hm & Hid).
  exists m. split; [done|].
  apply swap_pixels_identity; [done|].
  intros c Hc. apply Hid. by apply elem_of_catalog.
Qed.

(** The two outcomes of the transform step, for use further down. *)
Lemma swap_pixels_Ok (original : Image) (color_map : gmap Color Color)
    (fill : Color) :
  wf_image original →
  (∀ c, c ∈ getdata original → is_Some (color_map !! c)) →
  ∃ out, swap_pixels original color_map (Image_new (im_size original) fill) =
           Ok out ∧
         wf_image out ∧ im_size out = im_size original ∧
         ∀ x y, x < width original → y < height original →
           ∃ c v, getpixel original x y = Ok c ∧ color_map !! c = Some v ∧
                  getpixel out x y = Ok v.
Proof.
  intros Hwf Hall.
  pose proof (swap_pixels_spec original (Image_new (im_size original) fill)
    color_map Hwf (wf_Image_new _ _) eq_refl) as Hspec.
  destruct (swap_pixels _ _ _) as [out|e]; [by exists out|exfalso].
  destruct Hspec as (x & y & c & Hx & Hy & Hpix & Hnone & _).
  destruct (Hall c) as [v Hv]; [|congruence].
  apply (elem_of_getdata _ _ Hwf). by exists x, y.
Qed.

Lemma swap_pixels_Raise (original : Image) (color_map : gmap Color Color)
    (fill : Color) :
  wf_image original →
  (∃ c, c ∈ getdata original ∧ color_map !! c = None) →
  ∃ c, c ∈ getdata original ∧ color_map !! c = None ∧
       swap_pixels original color_map (Image_new (im_size original) fill) =
         Raise (KeyError c).
Proof.
  intros Hwf (c & Hc & Hnone).
  pose proof (swap_pixels_spec original (Image_new (im_size original) fill)
    color_map Hwf (wf_Image_new _ _) eq_refl) as Hspec.
  destruct (swap_pixels _ _ _) as [out|e].
  - exfalso. apply (elem_of_getdata _ _ Hwf) in Hc as (x & y & Hx & Hy & Hpix).
    destruct Hspec as (_ & _ & Hmapped).
    destruct (Hmapped x y Hx Hy) as (c' & v & Hc' & Hv & _). congruence.
  - destruct Hspec as (x & y & c' & Hx & Hy & Hpix & Hnone' & ->).
    exists c'. split_and!; [|done|done].
    apply (elem_of_getdata _ _ Hwf). by exists x, y.
Qed.

(** The keys of the dictionary, for use further down. *)
Lemma get_color_map_is_Some (old_colors new_colors : list Color) :
  ∃ color_map,
    get_color_map old_colors new_colors = Ok color_map ∧
    ∀ c, is_Some (color_map !! c) ↔ c ∈ old_colors.
Proof.
  destruct (get_color_map_spec old_colors new_colors) as (m & Hm & Hdom & _).
  exists m. split; [done|].
  intros c. by rewrite <- elem_of_dom, Hdom, elem_of_list_to_set.
Qed.

(** ** The palette image: [make_palette] *)

Lemma fits_byte (bits v : Z) :
  (32 ≤ bits)%Z → (0 ≤ v ≤ 255)%Z → fits bits v = true.
Proof.
  intros Hbits Hv. unfold fits.
  assert (2 ^ 31 ≤ 2 ^ (bits - 1))%Z as Hpow
    by (apply Z.pow_le_mono_r; lia).
  change (2 ^ 31)%Z with 2147483648%Z in Hpow.
  apply andb_true_intro. split; [apply Z.leb_le|apply Z.ltb_lt]; lia.
Qed.

Lemma CLIP8_byte (v : Z) : (0 ≤ v ≤ 255)%Z → CLIP8 v = v.
Proof.
  intros Hv. unfold CLIP8.
  destruct (Z.ltb_spec v 0); [lia|]. destruct (Z.ltb_spec 255 v); [lia|done].
Qed.


(** An RGBA pixel value is stored as it is. *)
Lemma getink_rgba (c : Color) : rgba c → getink c = Ok c.
Proof.
  intros [Hlen Hc].
  destruct c as [|r [|g [|b [|a [|]]]]]; simplify_eq/=.
  apply Forall_cons in Hc as [Hr Hc]. apply Forall_cons in Hc as [Hg Hc].
  apply Forall_cons in Hc as [Hb Hc]. apply Forall_cons in Hc as [Ha _].
  rewrite !fits_byte by (done || lia). simpl.
  by rewrite !CLIP8_byte.
Qed.


Lemma paint_row_length (x0 x1 : nat) (ink : Color) (row : list Color) :
  length (paint_row x0 x1 ink row) = length row.
Proof. apply length_imap. Qed.

Lemma paint_row_lookup (x0 x1 x : nat) (ink : Color) (row : list Color) :
  paint_row x0 x1 ink row !! x =
    if (x0 <=? x) && (x <=? x1) then (λ _, ink) <$> row !! x else row !! x.
Proof.
  unfold paint_row. rewrite list_lookup_imap.
  destruct (row !! x); simpl; by destruct ((x0 <=? x) && (x <=? x1)).
Qed.

(** A rectangle over all the rows of an image whose rows are equal. *)
Lemma draw_rectangle_uniform (size : nat * nat) (h x0 x1 : nat)
    (row : list Color) (fill ink : Color) :
  h ≤ 201 → getink fill = Ok ink →
  draw_rectangle (mkImage size (replicate h row)) (x0, 0, x1, 200) fill =
    Ok (mkImage size (replicate h (paint_row x0 x1 ink row))).
Proof.
  intros Hh Hink. unfold draw_rectangle. rewrite Hink. simpl. do 2 f_equal.
  apply list_eq. intros y. rewrite list_lookup_imap.
  destruct (decide (y < h)) as [Hy|Hy].
  - rewrite (lookup_replicate_2 h row y Hy).
    rewrite (lookup_replicate_2 h (paint_row x0 x1 ink row) y Hy).
    simpl. f_equal. apply imap_ext. intros x c _. simpl.
    rewrite (proj2 (Nat.leb_le y 200)) by lia. by rewrite !andb_true_r.
  - rewrite (proj1 (lookup_replicate_None h row y)) by lia.
    by rewrite (proj1 (lookup_replicate_None h (paint_row x0 x1 ink row) y)) by lia.
Qed.

Lemma strips_length (col_width right_shift : nat) (colors row : list Color) :
  length (strips col_width right_shift colors row) = length row.
Proof.
  revert right_shift row. induction colors as [|c colors IH]; intros rs row; simpl.
  - done.
  - by rewrite IH, paint_row_length.
Qed.

(** The drawing loop of [make_palette] on RGBA fill colors. *)
Lemma make_palette_loop (col_width right_shift : nat) (colors row : list Color) :
  Forall rgba colors →
  foldM (λ '(palette_image, right_shift) color,
           palette_image ←
             draw_rectangle palette_image
               (col_width * right_shift, 0,
                col_width * (right_shift + 1), snd palette_size)
               color;
           Ok (palette_image, right_shift + 1))
        (mkImage palette_size (replicate 200 row), right_shift) colors =
  Ok (mkImage palette_size
        (replicate 200 (strips col_width right_shift colors row)),
      right_shift + length colors).
Proof.
  intros Hcolors.
  match goal with |- foldM ?f _ _ = _ => set (body := f) end.
  assert (∀ im rs c, body (im, rs) c =
            im' ← draw_rectangle im
                    (col_width * rs, 0, col_width * (rs + 1), 200) c;
            Ok (im', rs + 1)) as Hbody by done.
  clearbody body. revert right_shift row.
  induction Hcolors as [|c colors Hc _ IH]; intros rs row.
  - simpl. by rewrite Nat.add_0_r.
  - cbn [foldM]. rewrite Hbody.
    rewrite (draw_rectangle_uniform _ 200 _ _ row c c)
      by (lia || by apply getink_rgba).
    cbn [mbind res_bind]. rewrite IH.
    cbn [strips length]. do 2 f_equal. lia.
Qed.

Lemma Forall_rgba_get_im_data (image : Image) :
  rgba_image image → Forall rgba (get_im_data image).
Proof.
  intros Him. apply Forall_forall. intros c Hc.
  unfold get_im_data in Hc. rewrite elem_of_catalog in Hc. unfold getdata in Hc.
  apply elem_of_concat in Hc as (y & row & x & Hy & Hx).
  unfold rgba_image in Him. rewrite Forall_forall in Him.
  specialize (Him row ltac:(by eapply list_elem_of_lookup_2)).
  rewrite Forall_forall in Him. apply Him. by eapply list_elem_of_lookup_2.
Qed.

(** The palette image of an RGBA image that has pixels: 200 equal rows of
    300 pixels, the strips of the catalog drawn over transparent black. *)
Lemma make_palette_of_image (text : TextPainter) (original : Image) :
  rgba_image original → get_im_data original ≠ [] →
  make_palette text (Some original) None None =
    Ok (mkImage palette_size
          (replicate 200
             (strips (300 / length (get_im_data original)) 0
                     (get_im_data original)
                     (replicate 300 [0; 0; 0; 0]%Z)))).
Proof.
  intros Hrgba Hne. unfold make_palette.
  cbn [mbind res_bind default]. unfold floor_div.
  destruct (decide (length (get_im_data original) = 0)) as [Hz|_].
  { by apply nil_length_inv in Hz. }
  cbn [mbind res_bind].
  change (Image_new palette_size ?c)
    with (mkImage palette_size (replicate 200 (replicate 300 c))).
  rewrite make_palette_loop by by apply Forall_rgba_get_im_data.
  done.
Qed.

(** With strips of width zero every rectangle is the first column: the
    last color drawn is all that is left of the catalog. *)
Lemma strips_zero_width (right_shift : nat) (colors rest : list Color) (a : Color) :
  strips 0 right_shift colors (a :: rest) = default a (last colors) :: rest.
Proof.
  revert right_shift a. induction colors as [|c colors IH]; intros rs a; [done|].
  cbn [strips]. change (0 * ?n) with 0.
  assert (paint_row 0 0 c (a :: rest) = c :: rest) as ->.
  { apply list_eq. intros [|x]; rewrite paint_row_lookup; [done|].
    simpl. done. }
  rewrite IH. destruct colors as [|d colors]; [done|].
  change (last (c :: d :: colors)) with (last (d :: colors)).
  destruct (last (d :: colors)) as [e|] eqn:Hlast; [done|].
  by apply last_None in Hlast.
Qed.

(** Strips to the right leave the columns to their left as they are. *)
Lemma strips_lookup_left (col_width right_shift x : nat) (colors row : list Color) :
  x < col_width * right_shift →
  strips col_width right_shift colors row !! x = row !! x.
Proof.
  revert right_shift row. induction colors as [|c colors IH]; intros rs row Hx; [done|].
  cbn [strips]. rewrite IH by nia. rewrite paint_row_lookup.
  destruct (Nat.leb_spec (col_width * rs) x); [lia|done].
Qed.

(** With strips at least one pixel wide, the first column of the strip of
    each color keeps that color. *)
Lemma strips_lookup_first_column (col_width right_shift k : nat)
    (colors row : list Color) (c : Color) :
  0 < col_width → colors !! k = Some c →
  col_width * (right_shift + k) < length row →
  strips col_width right_shift colors row !! (col_width * (right_shift + k)) = Some c.
Proof.
  intros Hw. revert right_shift row k.
  induction colors as [|d colors IH]; intros rs row k Hk Hlen; [done|].
  cbn [strips]. destruct k as [|k]; simpl in Hk.
  - injection Hk as ->. rewrite Nat.add_0_r in *.
    rewrite strips_lookup_left by nia. rewrite paint_row_lookup.
    destruct (Nat.leb_spec (col_width * rs) (col_width * rs)); [|lia].
    destruct (Nat.leb_spec (col_width * rs) (col_width * (rs + 1))); [|nia].
    simpl. destruct (lookup_lt_is_Some_2 row (col_width * rs) Hlen) as [p ->]. done.
  - replace (rs + S k) with ((rs + 1) + k) in * by lia.
    apply IH; [done|]. by rewrite paint_row_length.
Qed.

(** ** The pipeline: [swap_colors] *)

(** An image without pixels: the palette of the original cannot be drawn. *)
Lemma swap_colors_no_pixels (text : TextPainter) (original palette : Image) :
  getdata original = [] →
  swap_colors text original palette = Raise ZeroDivisionError.
Proof.
  intros Hempty. unfold swap_colors, make_palette.
  cbn [mbind res_bind default]. by rewrite (get_im_data_empty _ Hempty).
Qed.

(** C5 (what the program does). On a 0x0 image [swap_colors] raises
    [ZeroDivisionError] while it draws the palette of the original, whatever
    the destination palette; taken one by one, the steps behave as the claim
    says: the catalog is empty, the dictionary is empty, the transform step
    returns the 0x0 image. *)
Theorem swap_colors_empty_image (text : TextPainter) (palette : Image)
    (fill : Color) :
  swap_colors text (Image_new (0, 0) fill) palette = Raise ZeroDivisionError ∧
  get_im_data (Image_new (0, 0) fill) = [] ∧
  get_color_map [] (get_im_data palette) = Ok ∅ ∧
  swap_pixels (Image_new (0, 0) fill) ∅ (Image_new (0, 0) [255; 255; 255; 0]%Z) =
    Ok (Image_new (0, 0) [255; 255; 255; 0]%Z).
Proof. split_and!; [by apply swap_colors_no_pixels|done..]. Qed.

Lemma swap_colors_unfold (text : TextPainter) (original palette : Image) :
  rgba_image original → get_im_data original ≠ [] →
  swap_colors text original palette =
    color_map ← get_color_map (get_im_data (old_palette original))
                              (get_im_data palette);
    swap_pixels original color_map
      (Image_new (im_size original) [255; 255; 255; 0]%Z).
Proof.
  intros Hrgba Hne. unfold swap_colors.
  by rewrite (make_palette_of_image text original Hrgba Hne).
Qed.

Lemma elem_of_get_im_data_rows (size : nat * nat) (h : nat)
    (row : list Color) (c : Color) :
  c ∈ get_im_data (mkImage size (replicate (S h) row)) ↔ c ∈ row.
Proof.
  unfold get_im_data. rewrite elem_of_catalog. unfold getdata. simpl.
  rewrite elem_of_app, elem_of_concat. split.
  - intros [Hc|(y & row' & x & Hy & Hx)]; [done|].
    apply lookup_replicate in Hy as [-> _]. by eapply list_elem_of_lookup_2.
  - by left.
Qed.

(** More than 300 colors: the keys of the dictionary are at most the last
    color of the catalog and transparent black. *)
Lemma old_palette_over_300_colors (original : Image) (c : Color) :
  300 < length (get_im_data original) →
  c ∈ get_im_data (old_palette original) →
  last (get_im_data original) = Some c ∨ c = transparent.
Proof.
  intros Hmany. rewrite elem_of_get_im_data_rows.
  rewrite Nat.div_small by done.
  change (replicate 300 transparent)
    with (transparent :: replicate 299 transparent).
  rewrite strips_zero_width.
  intros [->|Hc%elem_of_replicate]%elem_of_cons; [|by right; apply Hc].
  destruct (last (get_im_data original)) as [l|] eqn:Hlast; [by left|by right].
Qed.

(** From 1 to 300 colors: every color of the catalog is in the palette
    image, hence a key of the dictionary. *)
Lemma old_palette_up_to_300_colors (original : Image) (c : Color) :
  1 ≤ length (get_im_data original) ≤ 300 →
  c ∈ get_im_data original → c ∈ get_im_data (old_palette original).
Proof.
  intros Hfew Hc. rewrite elem_of_get_im_data_rows.
  apply list_elem_of_lookup_1 in Hc as [k Hk].
  pose proof (lookup_lt_Some _ _ _ Hk) as Hklt.
  set (n := length (get_im_data original)) in *.
  assert (0 < 300 / n) as Hw by (apply Nat.div_str_pos; lia).
  pose proof (Nat.Div0.mul_div_le 300 n) as Hle.
  apply (list_elem_of_lookup_2 _ (300 / n * (0 + k))).
  apply strips_lookup_first_column; [done|done|].
  rewrite length_replicate. simpl. nia.
Qed.

Lemma catalog_prefix (l acc : list Color) :
  ∃ rest, fold_left catalog_step l acc = acc ++ rest.
Proof.
  revert acc. induction l as [|c l IH]; intros acc; simpl.
  - exists []. by rewrite app_nil_r.
  - destruct (decide (c ∈ acc)); [apply IH|].
    destruct (IH (acc ++ [c])) as [rest ->]. exists (c :: rest).
    by rewrite <- app_assoc.
Qed.

(** The first pixel of the traversal is the first color of the catalog. *)
Lemma get_im_data_first_pixel (image : Image) (c : Color) :
  getpixel image 0 0 = Ok c → get_im_data image !! 0 = Some c.
Proof.
  unfold getpixel, index, get_im_data, getdata. intros Hpix.
  destruct (im_rows image) as [|[|c' row] rows]; simplify_eq/=.
  destruct (catalog_prefix (row ++ concat rows) [c]) as [rest ->]. done.
Qed.

(** The first iteration of the loops looks up the pixel at [(0, 0)]. *)
Lemma swap_pixels_first_pixel (original : Image)
    (color_map : gmap Color Color) (fill c : Color) :
  wf_image original → getpixel original 0 0 = Ok c → color_map !! c = None →
  swap_pixels original color_map (Image_new (im_size original) fill) =
    Raise (KeyError c).
Proof.
  intros Hwf Hpix Hnone.
  destruct (getpixel_Ok_inv original 0 0 c Hwf Hpix) as (Hw & Hh & _).
  unfold swap_pixels, width, height in *. simpl.
  destruct (im_size original) as [[|w] [|h]]; simpl in *; try lia.
  rewrite Hpix. simpl. unfold getitem. by rewrite Hnone.
Qed.

(** More than 300 distinct colors: the dictionary of [swap_colors] has at
    most two keys, and the lookup of some pixel raises [KeyError]. *)
Lemma swap_colors_over_300_colors (text : TextPainter)
    (original palette : Image) :
  wf_image original → rgba_image original →
  300 < length (get_im_data original) →
  ∃ c, c ∈ getdata original ∧
       swap_colors text original palette = Raise (KeyError c).
Proof.
  intros Hwf Hrgba Hmany.
  rewrite swap_colors_unfold; [|done|intros Hnil; rewrite Hnil in Hmany; simpl in Hmany; lia].
  destruct (get_color_map_is_Some (get_im_data (old_palette original))
              (get_im_data palette)) as (m & -> & Hkeys).
  cbn [mbind res_bind].
  assert (∀ c, is_Some (m !! c) →
            last (get_im_data original) = Some c ∨ c = transparent) as Htwo.
  { intros c Hc. apply Hkeys in Hc. by apply old_palette_over_300_colors. }
  assert ((∃ c, c ∈ getdata original ∧ m !! c = None) →
          ∃ c, c ∈ getdata original ∧
               swap_pixels original m
                 (Image_new (im_size original) [255; 255; 255; 0]%Z) =
               Raise (KeyError c)) as Hraise.
  { intros Hmiss.
    destruct (swap_pixels_Raise original m [255; 255; 255; 0]%Z Hwf Hmiss)
      as (c & Hc & _ & Hres).
    by exists c. }
  pose proof (NoDup_catalog (getdata original)) as Hnodup.
  change (NoDup (get_im_data original)) in Hnodup.
  assert (∀ k c, get_im_data original !! k = Some c →
            is_Some (m !! c) ∨
            ∃ c, c ∈ getdata original ∧
                 swap_pixels original m
                   (Image_new (im_size original) [255; 255; 255; 0]%Z) =
                 Raise (KeyError c)) as Hkey.
  { intros k c Hk. destruct (m !! c) as [v|] eqn:Hv; [by left; eexists|right].
    apply Hraise. exists c. split; [|done].
    apply elem_of_catalog. by eapply list_elem_of_lookup_2. }
  destruct (lookup_lt_is_Some_2 (get_im_data original) 0) as [c0 Hc0]; [lia|].
  destruct (lookup_lt_is_Some_2 (get_im_data original) 1) as [c1 Hc1]; [lia|].
  destruct (lookup_lt_is_Some_2 (get_im_data original) 2) as [c2 Hc2]; [lia|].
  destruct (Hkey 0 c0 Hc0) as [K0|?]; [|done].
  destruct (Hkey 1 c1 Hc1) as [K1|?]; [|done].
  destruct (Hkey 2 c2 Hc2) as [K2|?]; [|done].
  exfalso.
  assert (c0 ≠ c1) as H01.
  { intros ->. by pose proof (NoDup_lookup _ _ _ _ Hnodup Hc0 Hc1). }
  assert (c0 ≠ c2) as H02.
  { intros ->. by pose proof (NoDup_lookup _ _ _ _ Hnodup Hc0 Hc2). }
  assert (c1 ≠ c2) as H12.
  { intros ->. by pose proof (NoDup_lookup _ _ _ _ Hnodup Hc1 Hc2). }
  destruct (Htwo c0 K0) as [E0|E0], (Htwo c1 K1) as [E1|E1],
    (Htwo c2 K2) as [E2|E2]; congruence.
Qed.

(** More than 300 distinct colors, seen from the first pixel: unless it is
    transparent black, its lookup is the one that raises. *)
Lemma swap_colors_over_300_first_pixel (text : TextPainter)
    (original palette : Image) (c : Color) :
  wf_image original → rgba_image original →
  300 < length (get_im_data original) →
  getpixel original 0 0 = Ok c → c ≠ transparent →
  swap_colors text original palette = Raise (KeyError c).
Proof.
  intros Hwf Hrgba Hmany Hpix Hc.
  rewrite swap_colors_unfold; [|done|intros Hnil; rewrite Hnil in Hmany; simpl in Hmany; lia].
  destruct (get_color_map_is_Some (get_im_data (old_palette original))
              (get_im_data palette)) as (m & -> & Hkeys).
  cbn [mbind res_bind].
  apply swap_pixels_first_pixel; [done|done|].
  apply eq_None_not_Some. intros Hsome. apply Hkeys in Hsome.
  apply old_palette_over_300_colors in Hsome as [Hlast|]; [|done..].
  pose proof (NoDup_catalog (getdata original)) as Hnodup.
  change (NoDup (get_im_data original)) in Hnodup.
  pose proof (get_im_data_first_pixel original c Hpix) as Hfirst.
  rewrite last_lookup in Hlast.
  pose proof (NoDup_lookup _ _ _ _ Hnodup Hfirst Hlast). lia.
Qed.

(** From 1 to 300 distinct colors: the lookup never fails, and the output
    is the original repainted through the dictionary. *)
Lemma swap_colors_up_to_300_colors (text : TextPainter)
    (original palette : Image) :
  wf_image original → rgba_image original →
  1 ≤ length (get_im_data original) ≤ 300 →
  ∃ old_pal color_map out,
    make_palette text (Some original) None None = Ok old_pal ∧
    get_color_map (get_im_data old_pal) (get_im_data palette) = Ok color_map ∧
    swap_colors text original palette = Ok out ∧
    im_size out = im_size original ∧
    ∀ x y, x < width original → y < height original →
      ∃ c v, getpixel original x y = Ok c ∧ color_map !! c = Some v ∧
             getpixel out x y = Ok v.
Proof.
  intros Hwf Hrgba Hfew.
  assert (get_im_data original ≠ []) as Hne.
  { intros Hnil. rewrite Hnil in Hfew. simpl in Hfew. lia. }
  rewrite swap_colors_unfold by done.
  rewrite (make_palette_of_image text original Hrgba Hne).
  destruct (get_color_map_is_Some (get_im_data (old_palette original))
              (get_im_data palette)) as (m & Hm & Hkeys).
  rewrite Hm. cbn [mbind res_bind].
  destruct (swap_pixels_Ok original m [255; 255; 255; 0]%Z Hwf)
    as (out & Hout & _ & Hsize & Hmapped).
  { intros c Hc. apply Hkeys, old_palette_up_to_300_colors; [done|].
    by apply elem_of_catalog. }
  by exists (old_palette original), m, out.
Qed.

(** X6. The round trip through the whole pipeline: with the palette image
    of the original as destination palette, an image of 1 to 300 colors
    comes back as it is. *)
Lemma swap_colors_own_palette (text : TextPainter) (original : Image) :
  wf_image original → rgba_image original →
  1 ≤ length (get_im_data original) ≤ 300 →
  ∃ old_pal,
    make_palette text (Some original) None None = Ok old_pal ∧
    swap_colors text original old_pal = Ok original.
Proof.
  intros Hwf Hrgba Hfew.
  assert (get_im_data original ≠ []) as Hne.
  { intros Hnil. rewrite Hnil in Hfew. simpl in Hfew. lia. }
  exists (old_palette original). split; [by apply make_palette_of_image|].
  rewrite swap_colors_unfold by done.
  destruct (get_color_map_same_list (get_im_data (old_palette original)))
    as (m & -> & Hid).
  cbn [mbind res_bind]. apply swap_pixels_identity; [done|].
  intros c Hc. apply Hid, old_palette_up_to_300_colors; [done|].
  by apply elem_of_catalog.
Qed.

(** ** The palette file: [load_palette_file] *)

(** The drawing loop of [make_palette] on any fill colors: it raises where
    Pillow rejects a fill color, and draws the converted colors otherwise. *)
Lemma make_palette_loop_inks (col_width right_shift : nat)
    (colors row : list Color) :
  foldM (λ '(palette_image, right_shift) color,
           palette_image ←
             draw_rectangle palette_image
               (col_width * right_shift, 0,
                col_width * (right_shift + 1), snd palette_size)
               color;
           Ok (palette_image, right_shift + 1))
        (mkImage palette_size (replicate 200 row), right_shift) colors =
  inks ← mapM getink colors;
  Ok (mkImage palette_size
        (replicate 200 (strips col_width right_shift inks row)),
      right_shift + length colors).
Proof.
  match goal with |- foldM ?f _ _ = _ => set (body := f) end.
  assert (∀ im rs c, body (im, rs) c =
            im' ← draw_rectangle im
                    (col_width * rs, 0, col_width * (rs + 1), 200) c;
            Ok (im', rs + 1)) as Hbody by done.
  clearbody body. revert right_shift row.
  induction colors as [|c colors IH]; intros rs row.
  - simpl. by rewrite Nat.add_0_r.
  - cbn [foldM mapM]. rewrite Hbody.
    destruct (getink c) as [ink|e] eqn:Hink.
    + rewrite (draw_rectangle_uniform _ 200 _ _ row c ink) by (lia || done).
      cbn [mbind res_bind]. rewrite IH.
      destruct (mapM getink colors) as [inks|e]; [|done].
      cbn [mbind res_bind mret res_ret strips length]. do 2 f_equal. lia.
    + unfold draw_rectangle. by rewrite Hink.
Qed.




(** The two loops of [load_palette_file]: the only check is [int]. *)
Lemma load_palette_file_entry (entry : Color) (line : list string) :
  match mapM py_int line with
  | Some values =>
      foldM (λ entry val,
               match py_int val with
               | Some n => Ok (entry ++ [n])
               | None => Raise (ValueError val)
               end) entry line = Ok (entry ++ values)
  | None =>
      ∃ val, val ∈ line ∧ py_int val = None ∧
        foldM (λ entry val,
                 match py_int val with
                 | Some n => Ok (entry ++ [n])
                 | None => Raise (ValueError val)
                 end) entry line = Raise (ValueError val)
  end.
Proof.
  revert entry. induction line as [|val line IH]; intros entry; cbn [mapM foldM].
  - simpl. by rewrite app_nil_r.
  - destruct (py_int val) as [n|] eqn:Hval; cbn [mbind option_bind res_bind].
    + specialize (IH (entry ++ [n])).
      destruct (mapM py_int line) as [values|]; cbn [mbind option_bind mret option_ret].
      * by rewrite IH, <- app_assoc.
      * destruct IH as (val' & Hin & Hnone & Hres). exists val'.
        split_and!; [by right|done|done].
    + exists val. split_and!; [by left|done|done].
Qed.

Lemma load_palette_file_colors (colors : list Color) (file : list string) :
  match mapM parse_entry file with
  | Some parsed =>
      foldM (λ colors entry,
               let line := split ","%char entry in
               entry ← foldM (λ entry val,
                                match py_int val with
                                | Some n => Ok (entry ++ [n])
                                | None => Raise (ValueError val)
                                end)
                             [] line;
               Ok (colors ++ [entry]))
            colors file = Ok (colors ++ parsed)
  | None =>
      ∃ entry val, entry ∈ file ∧ val ∈ split ","%char entry ∧
        py_int val = None ∧
        foldM (λ colors entry,
                 let line := split ","%char entry in
                 entry ← foldM (λ entry val,
                                  match py_int val with
                                  | Some n => Ok (entry ++ [n])
                                  | None => Raise (ValueError val)
                                  end)
                               [] line;
                 Ok (colors ++ [entry]))
              colors file = Raise (ValueError val)
  end.
Proof.
  set (body := λ (colors : list Color) (entry : string),
    let line := split ","%char entry in
    entry ← foldM (λ entry val,
                     match py_int val with
                     | Some n => Ok (entry ++ [n])
                     | None => Raise (ValueError val)
                     end)
                  [] line;
    Ok (colors ++ [entry])).
  assert (∀ colors entry, body colors entry =
            entry' ← foldM (λ entry val,
                              match py_int val with
                              | Some n => Ok (entry ++ [n])
                              | None => Raise (ValueError val)
                              end)
                           [] (split ","%char entry);
            Ok (colors ++ [entry'])) as Hbody by done.
  clearbody body.
  revert colors. induction file as [|entry file IH]; intros colors; cbn [mapM foldM].
  - simpl. by rewrite app_nil_r.
  - rewrite Hbody.
    pose proof (load_palette_file_entry [] (split ","%char entry)) as Hentry.
    change (mapM py_int (split ","%char entry)) with (parse_entry entry) in Hentry.
    destruct (parse_entry entry) as [values|];
      cbn [mbind option_bind res_bind].
    + rewrite Hentry. cbn [mbind res_bind app].
      specialize (IH (colors ++ [values])).
      destruct (mapM parse_entry file) as [parsed|];
        cbn [mbind option_bind mret option_ret].
      * by rewrite IH, <- app_assoc.
      * destruct IH as (entry' & val & Hin & Hval & Hnone & Hres).
        exists entry', val. split_and!; [by right|done..].
    + destruct Hentry as (val & Hval & Hnone & ->).
      exists entry, val. split_and!; [by left|done..].
Qed.

(** Pillow rejects a fill color with [TypeError] or [OverflowError], and
    never a pixel value of an RGBA image. *)
Lemma getink_Raise (c : Color) (e : exn) :
  getink c = Raise e → ¬ rgba c ∧ (e = TypeError ∨ e = OverflowError).
Proof.
  intros He. split.
  - intros Hc. by rewrite (getink_rgba c Hc) in He.
  - destruct c as [|r [|g [|b [|a [|v c]]]]];
      cbv beta iota delta [getink] in He;
      repeat match type of He with
             | (if ?b then _ else _) = _ => destruct b
             end;
      first [discriminate He | injection He as <-; by auto].
Qed.

Lemma mapM_getink_Raise (colors : list Color) (e : exn) :
  mapM getink colors = Raise e → ∃ c, c ∈ colors ∧ getink c = Raise e.
Proof.
  induction colors as [|c colors IH]; cbn [mapM]; [done|].
  destruct (getink c) as [ink|e'] eqn:Hink; cbn [mbind res_bind].
  - destruct (mapM getink colors) as [inks|e'']; cbn [mbind res_bind]; [done|].
    intros [= <-]. destruct (IH eq_refl) as (c' & Hin & Hc').
    exists c'. split; [by right|done].
  - intros [= <-]. exists c. split; [by left|done].
Qed.

(** [make_palette] on a list of at least one color, with or without text. *)
Lemma make_palette_any_text (text : TextPainter) (base : option Image)
    (colors : list Color) (disp_text : option string) :
  colors ≠ [] →
  make_palette text base (Some colors) disp_text =
    inks ← mapM getink colors;
    Ok (let palette_image :=
          mkImage palette_size
            (replicate 200
               (strips (300 / length colors) 0 inks (replicate 300 transparent)))
        in
        match disp_text with
        | Some disp_text =>
            if decide (disp_text = EmptyString) then palette_image
            else text palette_image (0, 0) disp_text [255; 255; 255; 255]%Z
        | None => palette_image
        end).
Proof.
  intros Hne. unfold make_palette.
  cbn [default from_option id]. unfold floor_div.
  destruct (decide (length colors = 0)) as [Hz|_].
  { by apply nil_length_inv in Hz. }
  destruct base; cbn [mbind res_bind];
    change (Image_new palette_size ?c)
      with (mkImage palette_size (replicate 200 (replicate 300 c)));
    rewrite make_palette_loop_inks;
    (destruct (mapM getink colors) as [inks|e]; [|done]);
    cbn [mbind res_bind];
    (destruct disp_text as [s|]; [|done]);
    by destruct (decide (s = EmptyString)).
Qed.

Lemma make_palette_no_colors (text : TextPainter) (base : option Image)
    (disp_text : option string) :
  make_palette text base (Some []) disp_text = Raise ZeroDivisionError.
Proof. by destruct base. Qed.

Lemma make_palette_ZeroDivisionError (text : TextPainter) (base : option Image)
    (colors : list Color) (disp_text : option string) :
  make_palette text base (Some colors) disp_text = Raise ZeroDivisionError ↔
  colors = [].
Proof.
  split; [|intros ->; apply make_palette_no_colors].
  intros Hres. destruct (decide (colors = [])) as [|Hne]; [done|].
  rewrite make_palette_any_text in Hres by done.
  destruct (mapM getink colors) as [inks|e] eqn:Hinks;
    cbn [mbind res_bind] in Hres; [discriminate Hres|].
  injection Hres as ->.
  apply mapM_getink_Raise in Hinks as (c & _ & Hc).
  by apply getink_Raise in Hc as [_ [|]].
Qed.




(** ** The program on sample data *)

Lemma wf_sample_image : wf_image sample_image.
Proof. apply (bool_decide_unpack _). vm_compute. exact I. Qed.

(** A 2x1 image of a red and a green pixel and the palette image of the
    single color blue, drawn without text: red becomes blue and green, for
    which the palette has no color, stays. *)
Example swap_colors_spec_scenario (text : TextPainter) :
  ∃ palette,
    make_palette text None (Some [blue]) None = Ok palette ∧
    get_im_data palette = [blue] ∧
    swap_colors text (mkImage (2, 1) [[red; green]]) palette =
      Ok (mkImage (2, 1) [[blue; green]]).
Proof.
  exists (mkImage palette_size (replicate 200 (replicate 300 blue))).
  split_and!.
  - rewrite make_palette_any_text by done. vm_compute. reflexivity.
  - vm_compute. reflexivity.
  - rewrite swap_colors_unfold.
    + vm_compute. reflexivity.
    + apply (bool_decide_unpack _). vm_compute. exact I.
    + discriminate.
Qed.

(** The catalog of the sample image, through the theorem on [get_im_data]. *)
Lemma get_im_data_first_occurrence_order_witness :
  wf_image sample_image ∧
  NoDup (get_im_data sample_image) ∧
  length (get_im_data sample_image) ≤ width sample_image * height sample_image ∧
  get_im_data sample_image = [red; green; blue].
Proof.
  assert (wf_image sample_image) as Hwf.
  { apply (bool_decide_unpack _). vm_compute. exact I. }
  destruct (get_im_data_first_occurrence_order sample_image Hwf)
    as (Hnodup & Hlen & _).
  split_and!; [exact Hwf|exact Hnodup|exact Hlen|reflexivity].
Defined.

(** The transform step on the sample image with a dictionary that lacks
    blue, and with one that has every color. *)
Lemma swap_pixels_unmapped_color_witness :
  wf_image sample_image ∧
  (∃ c, c ∈ getdata sample_image ∧ delete blue sample_map !! c = None ∧
        swap_pixels sample_image (delete blue sample_map)
          (Image_new (im_size sample_image) [255; 255; 255; 0]%Z) =
        Raise (KeyError c)) ∧
  (∃ out, swap_pixels sample_image sample_map
            (Image_new (im_size sample_image) [255; 255; 255; 0]%Z) = Ok out ∧
          wf_image out ∧ im_size out = im_size sample_image ∧
          ∀ x y, x < width sample_image → y < height sample_image →
            ∃ c v, getpixel sample_image x y = Ok c ∧
                   sample_map !! c = Some v ∧ getpixel out x y = Ok v).
Proof.
  assert (wf_image sample_image) as Hwf.
  { apply (bool_decide_unpack _). vm_compute. exact I. }
  split; [exact Hwf|]. split.
  - apply (swap_pixels_unmapped_color sample_image (delete blue sample_map)
             [255; 255; 255; 0]%Z Hwf).
    exists blue. split; [|vm_compute; reflexivity].
    apply (bool_decide_unpack _). vm_compute. exact I.
  - apply (swap_pixels_unmapped_color sample_image sample_map
             [255; 255; 255; 0]%Z Hwf).
    apply Forall_forall. apply (bool_decide_unpack _). vm_compute. exact I.
Defined.

(** The transform step on the sample image: red becomes blue, green stays,
    blue becomes red. *)
Lemma swap_pixels_same_size_mapped_pixels_witness :
  wf_image sample_image ∧
  swap_pixels sample_image sample_map
    (Image_new (im_size sample_image) [255; 255; 255; 0]%Z) =
    Ok (mkImage (2, 2) [[blue; green]; [blue; red]]) ∧
  width (mkImage (2, 2) [[blue; green]; [blue; red]]) = width sample_image ∧
  height (mkImage (2, 2) [[blue; green]; [blue; red]]) = height sample_image ∧
  ∀ x y, x < width sample_image → y < height sample_image →
    ∃ c v, getpixel sample_image x y = Ok c ∧ sample_map !! c = Some v ∧
           getpixel (mkImage (2, 2) [[blue; green]; [blue; red]]) x y = Ok v.
Proof.
  assert (wf_image sample_image) as Hwf.
  { apply (bool_decide_unpack _). vm_compute. exact I. }
  assert (swap_pixels sample_image sample_map
            (Image_new (im_size sample_image) [255; 255; 255; 0]%Z) =
          Ok (mkImage (2, 2) [[blue; green]; [blue; red]])) as Hout.
  { vm_compute. reflexivity. }
  split; [exact Hwf|]. split; [exact Hout|].
  exact (swap_pixels_same_size_mapped_pixels sample_image _ sample_map _ Hwf Hout).
Defined.

(** The round trip on the sample image. *)
Lemma swap_pixels_round_trip_witness :
  wf_image sample_image ∧
  ∃ color_map,
    get_color_map (get_im_data sample_image) (get_im_data sample_image) =
      Ok color_map ∧
    swap_pixels sample_image color_map
      (Image_new (im_size sample_image) [255; 255; 255; 0]%Z) = Ok sample_image.
Proof.
  assert (wf_image sample_image) as Hwf.
  { apply (bool_decide_unpack _). vm_compute. exact I. }
  split; [exact Hwf|].
  exact (swap_pixels_round_trip sample_image [255; 255; 255; 0]%Z Hwf).
Defined.

(** Red at the indices 0 and 2, green in between: red gets the value of
    index 2, here red itself since the destination list has two colors. *)
Lemma get_color_map_last_pairing_wins_witness :
  ∃ color_map,
    get_color_map [red; green; red] [blue; white] = Ok color_map ∧
    color_map !! red = Some (default red ([blue; white] !! 2)).
Proof.
  apply (get_color_map_last_pairing_wins [red; green; red] [blue; white] 0 2 red).
  - lia.
  - reflexivity.
  - reflexivity.
  - intros k Hk. destruct k as [|[|[|k]]]; [lia|lia|lia|]. simpl. discriminate.
Defined.

(** C1, counterexample. Red at the indices 0 and 1: index 0 is below both
    lengths and the destination color at index 0 is green, yet the
    dictionary sends red to blue. *)
Lemma get_color_map_positional_counterexample :
  [red; red] !! 0 = Some red ∧ [green; blue] !! 0 = Some green ∧
  0 < length [red; red] `min` length [green; blue] ∧
  ∃ color_map,
    get_color_map [red; red] [green; blue] = Ok color_map ∧
    color_map !! red = Some blue.
Proof.
  split_and!; [reflexivity|reflexivity|simpl; lia|].
  eexists. split; [reflexivity|]. vm_compute. reflexivity.
Qed.

(** C10, counterexample. Red at the indices 0, 1 and 2: for the two indices
    0 < 1 the value determined by index 1 is blue, yet the dictionary sends
    red to white, the value of index 2. *)
Lemma get_color_map_last_pairing_wins_counterexample :
  [red; red; red] !! 0 = Some red ∧ [red; red; red] !! 1 = Some red ∧
  [green; blue; white] !! 1 = Some blue ∧
  ∃ color_map,
    get_color_map [red; red; red] [green; blue; white] = Ok color_map ∧
    color_map !! red = Some white.
Proof.
  split_and!; [reflexivity..|].
  eexists. split; [reflexivity|]. vm_compute. reflexivity.
Qed.



(** C9 (what the program does). On the 301x1 image of 301 distinct colors
    [swap_colors] raises the [KeyError] of the first pixel, whatever the
    destination palette: the palette image of the original keeps the last
    color of the catalog and transparent black only. *)
Theorem swap_colors_301_colors_KeyError (text : TextPainter) (palette : Image) :
  swap_colors text image_301_colors palette = Raise (KeyError [0; 0; 0; 255]%Z).
Proof.
  apply swap_colors_over_300_first_pixel.
  - apply (bool_decide_unpack _). vm_compute. exact I.
  - apply (bool_decide_unpack _). vm_compute. exact I.
  - apply Nat.ltb_lt. vm_compute. reflexivity.
  - reflexivity.
  - discriminate.
Qed.

(** * More on the catalog, the palette image and the pipeline *)

(** ** The catalog loop on lists *)

Lemma catalog_step_absorb (l acc : list Color) :
  (∀ c, c ∈ l → c ∈ acc) → fold_left catalog_step l acc = acc.
Proof.
  induction l as [|c l IH]; intros Hin; simpl; [done|].
  destruct (decide (c ∈ acc)) as [_|Hc]; [|by destruct Hc; apply Hin; left].
  apply IH. intros d Hd. apply Hin. by right.
Qed.

Lemma elem_of_catalog_acc (l acc : list Color) (c : Color) :
  c ∈ fold_left catalog_step l acc ↔ c ∈ acc ∨ c ∈ l.
Proof.
  revert acc. induction l as [|d l IH]; intros acc; simpl.
  - rewrite elem_of_nil. tauto.
  - rewrite IH, elem_of_cons. destruct (decide (d ∈ acc)) as [Hd|Hd].
    + split; [tauto|]. intros [?|[->|?]]; tauto.
    + rewrite elem_of_app, list_elem_of_singleton. tauto.
Qed.

Lemma catalog_step_replicate (n : nat) (c : Color) (acc : list Color) :
  fold_left catalog_step (replicate (S n) c) acc = catalog_step acc c.
Proof.
  simpl. apply catalog_step_absorb. intros d [-> _]%elem_of_replicate.
  destruct (decide (c ∈ acc)); [done|]. apply elem_of_app. right. by left.
Qed.

(** A traversal without repeated colors is its own catalog. *)
Lemma catalog_NoDup (l : list Color) : NoDup l → catalog l = l.
Proof.
  induction l as [|c l IH] using rev_ind; [done|].
  intros [Hl [Hc _]]%NoDup_app. rewrite catalog_snoc, (IH Hl).
  destruct (decide (c ∈ l)) as [Hin|_]; [|done].
  destruct (Hc c Hin). by left.
Qed.

(** Repeating every color [n > 0] times in place leaves the catalog as it is. *)
Lemma catalog_step_blocks (n : nat) (colors acc : list Color) :
  0 < n →
  fold_left catalog_step (colors ≫= replicate n) acc =
  fold_left catalog_step colors acc.
Proof.
  intros Hn. revert acc. induction colors as [|c colors IH]; intros acc; [done|].
  cbn [mbind list_bind]. rewrite fold_left_app, IH.
  destruct n as [|n]; [lia|]. by rewrite catalog_step_replicate.
Qed.

(** The catalog of equal rows is the catalog of one row. *)
Lemma get_im_data_equal_rows (size : nat * nat) (h : nat) (row : list Color) :
  get_im_data (mkImage size (replicate (S h) row)) = catalog row.
Proof.
  unfold get_im_data, getdata. simpl. rewrite fold_left_app.
  apply catalog_step_absorb. intros c Hc. apply elem_of_catalog.
  apply elem_of_concat in Hc as (y & row' & x & Hy & Hx).
  apply lookup_replicate in Hy as [-> _]. by eapply list_elem_of_lookup_2.
Qed.

(** ** The strips of the palette image *)

(** The strip of the color at position [k] spans [col_width] columns. *)
Lemma strips_lookup_strip (col_width right_shift k x : nat)
    (colors row : list Color) (c : Color) :
  colors !! k = Some c →
  col_width * (right_shift + k) ≤ x < col_width * (right_shift + k + 1) →
  x < length row →
  strips col_width right_shift colors row !! x = Some c.
Proof.
  revert right_shift row k.
  induction colors as [|d colors IH]; intros rs row k Hk Hx Hlen; [done|].
  cbn [strips]. destruct k as [|k]; simpl in Hk.
  - injection Hk as ->. rewrite Nat.add_0_r in *.
    rewrite strips_lookup_left by lia. rewrite paint_row_lookup.
    destruct (Nat.leb_spec (col_width * rs) x); [|lia].
    destruct (Nat.leb_spec x (col_width * (rs + 1))); [|lia].
    simpl. by destruct (lookup_lt_is_Some_2 row x Hlen) as [p ->].
  - apply (IH (rs + 1) _ k); [done| |by rewrite paint_row_length].
    replace (rs + 1 + k) with (rs + S k) by lia. done.
Qed.

(** The column on the right edge of the last strip has the last color. *)
Lemma strips_lookup_edge (col_width right_shift : nat)
    (colors row : list Color) (c : Color) :
  last colors = Some c →
  col_width * (right_shift + length colors) < length row →
  strips col_width right_shift colors row
    !! (col_width * (right_shift + length colors)) = Some c.
Proof.
  revert right_shift row.
  induction colors as [|d colors IH]; intros rs row Hlast Hlen; [done|].
  cbn [strips]. destruct colors as [|e colors].
  - simpl in *. injection Hlast as ->. rewrite paint_row_lookup.
    destruct (Nat.leb_spec (col_width * rs) (col_width * (rs + 1))); [|nia].
    destruct (Nat.leb_spec (col_width * (rs + 1)) (col_width * (rs + 1))); [|lia].
    simpl. by destruct (lookup_lt_is_Some_2 row _ Hlen) as [p ->].
  - change (last (d :: e :: colors)) with (last (e :: colors)) in Hlast.
    replace (rs + length (d :: e :: colors))
      with ((rs + 1) + length (e :: colors)) in * by (simpl; lia).
    apply IH; [done|]. by rewrite paint_row_length.
Qed.

(** The columns to the right of the last strip are as they were. *)
Lemma strips_lookup_right (col_width right_shift x : nat)
    (colors row : list Color) :
  col_width * (right_shift + length colors) < x →
  strips col_width right_shift colors row !! x = row !! x.
Proof.
  revert right_shift row.
  induction colors as [|d colors IH]; intros rs row Hx; [done|].
  cbn [strips]. simpl in Hx. rewrite IH by (simpl; nia).
  rewrite paint_row_lookup.
  destruct (Nat.leb_spec x (col_width * (rs + 1))); [nia|].
  by rewrite andb_false_r.
Qed.

Lemma length_bind_replicate (n : nat) (colors : list Color) :
  length (colors ≫= replicate n) = n * length colors.
Proof.
  induction colors as [|c colors IH]; cbn [mbind list_bind length]; [lia|].
  rewrite length_app, length_replicate. fold (colors ≫= replicate n).
  rewrite IH. lia.
Qed.

Lemma lookup_bind_replicate (n x : nat) (colors : list Color) :
  0 < n → (colors ≫= replicate n) !! x = colors !! (x / n).
Proof.
  intros Hn. revert x. induction colors as [|c colors IH]; intros x.
  - by rewrite !lookup_nil.
  - cbn [mbind list_bind]. fold (colors ≫= replicate n).
    destruct (decide (x < n)) as [Hx|Hx].
    + rewrite lookup_app_l by by rewrite length_replicate.
      rewrite Nat.div_small by done. by rewrite lookup_replicate_2.
    + rewrite lookup_app_r by (rewrite length_replicate; lia).
      rewrite length_replicate, IH.
      replace x with (1 * n + (x - n)) at 2 by lia.
      rewrite Nat.div_add_l by lia. done.
Qed.

(** A row of the palette image, spelled out: [col_width] pixels of each
    color, one more pixel of the last color on the right edge of its strip,
    and what is left of the row. *)
Lemma strips_row (col_width w : nat) (colors : list Color) (c_last : Color) :
  0 < col_width → last colors = Some c_last →
  col_width * length colors ≤ w →
  strips col_width 0 colors (replicate w transparent) =
    (colors ≫= replicate col_width) ++
    (if decide (col_width * length colors < w)
     then c_last :: replicate (w - col_width * length colors - 1) transparent
     else []).
Proof.
  intros Hw Hlast Hfit. set (n := length colors) in *.
  apply list_eq. intros x.
  destruct (decide (x < col_width * n)) as [Hx|Hx].
  - rewrite lookup_app_l by by rewrite length_bind_replicate.
    rewrite lookup_bind_replicate by done.
    pose proof (Nat.Div0.mul_div_le x col_width).
    pose proof (Nat.mul_succ_div_gt x col_width ltac:(lia)).
    assert (x / col_width < n) as Hk.
    { apply Nat.Div0.div_lt_upper_bound. lia. }
    destruct (lookup_lt_is_Some_2 colors _ Hk) as [c Hc]. rewrite Hc.
    apply (strips_lookup_strip _ 0 (x / col_width)); [done|lia|].
    rewrite length_replicate. lia.
  - rewrite lookup_app_r by (rewrite length_bind_replicate; lia).
    rewrite length_bind_replicate. fold n.
    destruct (decide (x = col_width * n)) as [->|Hne].
    + rewrite Nat.sub_diag. destruct (decide (col_width * n < w)) as [Hlt|Hge].
      * apply (strips_lookup_edge _ 0); [done|]. by rewrite length_replicate.
      * apply lookup_ge_None_2. rewrite strips_length, length_replicate. lia.
    + rewrite (strips_lookup_right _ 0) by (fold n; lia).
      destruct (decide (col_width * n < w)) as [Hlt|Hge].
      * replace (x - col_width * n) with (S (x - col_width * n - 1)) by lia.
        simpl. destruct (decide (x < w)) as [Hxw|Hxw].
        -- rewrite (lookup_replicate_2 w) by done.
           by rewrite lookup_replicate_2 by lia.
        -- rewrite (proj1 (lookup_replicate_None w _ x)) by lia.
           by rewrite (proj1 (lookup_replicate_None _ _ _)) by lia.
      * rewrite (proj1 (lookup_replicate_None w _ x)) by lia.
        by rewrite lookup_nil.
Qed.

(** The catalog of a row of the palette image: the catalog of the colors,
    with transparent black after them when pixels are left to the right of
    the last strip. *)
Lemma catalog_strips_row (col_width w : nat) (colors : list Color) :
  0 < col_width → colors ≠ [] → col_width * length colors ≤ w →
  catalog (strips col_width 0 colors (replicate w transparent)) =
    catalog (colors ++
             if decide (col_width * length colors + 1 < w)
             then [transparent] else []).
Proof.
  intros Hw Hne Hfit.
  destruct (last colors) as [c_last|] eqn:Hlast; [|by apply last_None in Hlast].
  rewrite (strips_row _ _ _ c_last) by done.
  rewrite !fold_left_app, catalog_step_blocks by done.
  assert (c_last ∈ catalog colors) as Hin.
  { apply elem_of_catalog. rewrite last_lookup in Hlast.
    by eapply list_elem_of_lookup_2. }
  destruct (decide (col_width * length colors < w)) as [Hlt|Hge].
  - cbn [fold_left]. destruct (decide (c_last ∈ catalog colors)); [|done].
    destruct (decide (col_width * length colors + 1 < w)) as [Hlt'|Hge'].
    + replace (w - col_width * length colors - 1)
        with (S (w - col_width * length colors - 2)) by lia.
      by rewrite catalog_step_replicate.
    + by replace (w - col_width * length colors - 1) with 0 by lia.
  - destruct (decide (col_width * length colors + 1 < w)); [lia|done].
Qed.

(** [make_palette] on a list of colors, without text. *)
Lemma make_palette_colors (text : TextPainter) (base : option Image)
    (colors : list Color) :
  colors ≠ [] →
  make_palette text base (Some colors) None =
    inks ← mapM getink colors;
    Ok (mkImage palette_size
          (replicate 200
             (strips (300 / length colors) 0 inks (replicate 300 transparent)))).
Proof.
  intros Hne. unfold make_palette.
  cbn [default from_option id]. unfold floor_div.
  destruct (decide (length colors = 0)) as [Hz|_].
  { by apply nil_length_inv in Hz. }
  destruct base; cbn [mbind res_bind];
    change (Image_new palette_size ?c)
      with (mkImage palette_size (replicate 200 (replicate 300 c)));
    rewrite make_palette_loop_inks;
    by destruct (mapM getink colors).
Qed.

Lemma mapM_getink_rgba_id (colors : list Color) :
  Forall rgba colors → mapM getink colors = Ok colors.
Proof.
  induction 1 as [|c colors Hc _ IH]; [done|].
  cbn [mapM]. by rewrite (getink_rgba c Hc), IH.
Qed.

(** X1. [make_palette] on 1 to 300 RGBA colors, without text, returns a
    300x200 image with one strip per color, left to right in the order of
    the list: the strip of the color at position [k] spans the columns from
    [col_width * k] to [col_width * (k + 1) - 1] on every row, where
    [col_width = 300 // len(color_list)]; the columns to the right of
    [col_width * len(color_list)] are transparent black. *)
Theorem make_palette_one_strip_per_color (text : TextPainter)
    (base : option Image) (colors : list Color) :
  Forall rgba colors → 1 ≤ length colors ≤ 300 →
  ∃ palette_image,
    make_palette text base (Some colors) None = Ok palette_image ∧
    im_size palette_image = (300, 200) ∧ wf_image palette_image ∧
    (∀ k c x y,
       colors !! k = Some c →
       300 / length colors * k ≤ x < 300 / length colors * (k + 1) →
       y < 200 → getpixel palette_image x y = Ok c) ∧
    (∀ x y,
       300 / length colors * length colors < x < 300 → y < 200 →
       getpixel palette_image x y = Ok [0; 0; 0; 0]%Z).
Proof.
  intros Hrgba Hlen.
  assert (colors ≠ []) as Hne.
  { intros ->. simpl in Hlen. lia. }
  rewrite make_palette_colors, mapM_getink_rgba_id by done.
  cbn [mbind res_bind]. eexists. split; [done|].
  set (n := length colors) in *.
  assert (0 < 300 / n) as Hw by (apply Nat.div_str_pos; lia).
  pose proof (Nat.Div0.mul_div_le 300 n) as Hfit.
  split_and!.
  - done.
  - unfold wf_image, width, height. cbn [im_rows im_size palette_size fst snd].
    split; [apply length_replicate|].
    apply Forall_replicate. rewrite strips_length. apply length_replicate.
  - intros k c x y Hk Hx Hy. unfold getpixel, index. cbn [im_rows].
    rewrite lookup_replicate_2 by done.
    pose proof (lookup_lt_Some _ _ _ Hk) as Hklt. fold n in Hklt.
    rewrite (strips_lookup_strip _ 0 k x _ _ c); [done|done|lia|].
    rewrite length_replicate. nia.
  - intros x y Hx Hy. unfold getpixel, index. cbn [im_rows].
    rewrite lookup_replicate_2 by done.
    rewrite (strips_lookup_right _ 0) by (fold n; lia).
    by rewrite lookup_replicate_2 by lia.
Qed.

(** X2. Reading the palette image back: for 1 to 300 distinct RGBA colors,
    [get_im_data] of the image that [make_palette] draws (without text) is
    the color list itself, in order, followed by transparent black exactly
    when pixels are left to the right of the last strip and transparent
    black is not one of the colors. *)
Theorem get_im_data_of_make_palette (text : TextPainter)
    (base : option Image) (colors : list Color) :
  Forall rgba colors → NoDup colors → 1 ≤ length colors ≤ 300 →
  ∃ palette_image,
    make_palette text base (Some colors) None = Ok palette_image ∧
    get_im_data palette_image =
      colors ++
      if decide (300 / length colors * length colors + 1 < 300 ∧
                 [0; 0; 0; 0]%Z ∉ colors)
      then [[0; 0; 0; 0]%Z] else [].
Proof.
  intros Hrgba Hnodup Hlen.
  assert (colors ≠ []) as Hne.
  { intros ->. simpl in Hlen. lia. }
  rewrite make_palette_colors, mapM_getink_rgba_id by done.
  cbn [mbind res_bind]. eexists. split; [done|].
  assert (0 < 300 / length colors) as Hw by (apply Nat.div_str_pos; lia).
  pose proof (Nat.Div0.mul_div_le 300 (length colors)) as Hfit.
  rewrite get_im_data_equal_rows, catalog_strips_row by (done || lia).
  destruct (decide (300 / length colors * length colors + 1 < 300)) as [Hlt|Hge].
  - rewrite catalog_snoc, (catalog_NoDup colors Hnodup).
    destruct (decide (transparent ∈ colors)) as [Hin|Hin].
    + rewrite decide_False by tauto. by rewrite app_nil_r.
    + by rewrite decide_True by tauto.
  - rewrite decide_False by tauto. rewrite !app_nil_r.
    by apply catalog_NoDup.
Qed.

(** X3. More than 300 colors do not fit: [make_palette] on more than 300
    RGBA colors draws every strip on the first column, and reading the
    image back gives the last color of the list and transparent black,
    nothing else. *)
Theorem get_im_data_of_make_palette_over_300 (text : TextPainter)
    (base : option Image) (colors : list Color) :
  Forall rgba colors → 300 < length colors →
  ∃ palette_image c_last,
    make_palette text base (Some colors) None = Ok palette_image ∧
    last colors = Some c_last ∧
    get_im_data palette_image =
      if decide (c_last = [0; 0; 0; 0]%Z) then [c_last]
      else [c_last; [0; 0; 0; 0]%Z].
Proof.
  intros Hrgba Hlen.
  assert (colors ≠ []) as Hne.
  { intros ->. simpl in Hlen. lia. }
  rewrite make_palette_colors, mapM_getink_rgba_id by done.
  cbn [mbind res_bind].
  destruct (last colors) as [c_last|] eqn:Hlast; [|by apply last_None in Hlast].
  eexists _, c_last. split_and!; [done..|].
  rewrite get_im_data_equal_rows, Nat.div_small by done.
  change (replicate 300 transparent)
    with (transparent :: replicate 299 transparent).
  rewrite strips_zero_width, Hlast.
  change (default transparent (Some c_last) :: replicate 299 transparent)
    with ([c_last] ++ replicate 299 transparent).
  rewrite fold_left_app, catalog_step_replicate. simpl.
  destruct (decide (transparent ∈ [c_last])) as [Hin|Hin].
  - apply list_elem_of_singleton in Hin. by rewrite decide_True.
  - rewrite decide_False; [done|]. intros ->. apply Hin. by left.
Qed.

(** The catalog of the palette image of the original starts with the
    catalog of the original. *)
Lemma old_palette_catalog_prefix (original : Image) :
  1 ≤ length (get_im_data original) ≤ 300 →
  ∃ rest, get_im_data (old_palette original) = get_im_data original ++ rest.
Proof.
  intros Hlen.
  assert (get_im_data original ≠ []) as Hne.
  { intros Hnil. rewrite Hnil in Hlen. simpl in Hlen. lia. }
  assert (0 < 300 / length (get_im_data original)) as Hw
    by (apply Nat.div_str_pos; lia).
  pose proof (Nat.Div0.mul_div_le 300 (length (get_im_data original))) as Hfit.
  rewrite get_im_data_equal_rows, catalog_strips_row by (done || lia).
  rewrite fold_left_app.
  change (catalog (get_im_data original))
    with (catalog (catalog (getdata original))).
  rewrite (catalog_NoDup _ (NoDup_catalog _)).
  apply catalog_prefix.
Qed.

(** X4. The pipeline on an RGBA image of 1 to 300 distinct colors never
    fails, keeps the size, and repaints by position in the two catalogs: a
    pixel whose color is at index [i] of the original's catalog takes the
    color at index [i] of the palette's catalog, and keeps its color when
    the palette's catalog has no index [i]. *)
Theorem swap_colors_by_catalog_position (text : TextPainter)
    (original palette : Image) :
  wf_image original → rgba_image original →
  1 ≤ length (get_im_data original) ≤ 300 →
  ∃ out,
    swap_colors text original palette = Ok out ∧
    width out = width original ∧ height out = height original ∧
    ∀ x y, x < width original → y < height original →
      ∃ c i, getpixel original x y = Ok c ∧
             get_im_data original !! i = Some c ∧
             getpixel out x y = Ok (default c (get_im_data palette !! i)).
Proof.
  intros Hwf Hrgba Hlen.
  assert (get_im_data original ≠ []) as Hne.
  { intros Hnil. rewrite Hnil in Hlen. simpl in Hlen. lia. }
  rewrite swap_colors_unfold by done.
  destruct (old_palette_catalog_prefix original Hlen) as [rest Hprefix].
  pose proof (NoDup_catalog (getdata (old_palette original))) as Hnodup.
  change (NoDup (get_im_data (old_palette original))) in Hnodup.
  destruct (get_color_map_spec (get_im_data (old_palette original))
              (get_im_data palette)) as (m & -> & _ & Hlast).
  cbn [mbind res_bind].
  assert (∀ c, c ∈ getdata original →
            ∃ i, get_im_data original !! i = Some c ∧
                 m !! c = Some (default c (get_im_data palette !! i))) as Hpos.
  { intros c Hc. apply elem_of_catalog in Hc.
    change (c ∈ get_im_data original) in Hc.
    apply list_elem_of_lookup_1 in Hc as [i Hi]. exists i. split; [done|].
    assert (get_im_data (old_palette original) !! i = Some c) as Hi'.
    { rewrite Hprefix. by apply lookup_app_l_Some. }
    apply Hlast; [done|]. intros k Hk Hk'.
    pose proof (NoDup_lookup _ _ _ _ Hnodup Hi' Hk'). lia. }
  destruct (swap_pixels_Ok original m [255; 255; 255; 0]%Z Hwf)
    as (out & -> & _ & Hsize & Hmapped).
  { intros c Hc. destruct (Hpos c Hc) as (i & _ & ->). by eexists. }
  exists out. split_and!; [done|unfold width; by rewrite Hsize
                          |unfold height; by rewrite Hsize|].
  intros x y Hx Hy. destruct (Hmapped x y Hx Hy) as (c & v & Hc & Hv & Hout).
  destruct (Hpos c) as (i & Hi & Hm).
  { apply (elem_of_getdata _ _ Hwf). by exists x, y. }
  exists c, i. split_and!; [done|done|congruence].
Qed.

(** ** More on [get_im_data] and [get_color_map] *)

(** X7. A buffer whose traversal has no repeated color is its own catalog:
    [get_im_data] returns the pixels as [getdata] lists them. *)
Theorem get_im_data_distinct_pixels (image : Image) :
  NoDup (getdata image) → get_im_data image = getdata image.
Proof. apply catalog_NoDup. Qed.

(** X8. The dictionary never invents a color: every value is the
    destination color at an index at which its key stands in the source
    list, or the key itself, and then the key stands at an index that the
    destination list does not have. *)
Theorem get_color_map_values (old_colors new_colors : list Color) :
  ∃ color_map,
    get_color_map old_colors new_colors = Ok color_map ∧
    ∀ c v, color_map !! c = Some v →
      ∃ i, old_colors !! i = Some c ∧
           (new_colors !! i = Some v ∨
            (v = c ∧ length new_colors ≤ i)).
Proof.
  destruct (get_color_map_spec old_colors new_colors) as (m & Hm & Hdom & Hlast).
  exists m. split; [done|]. intros c v Hv.
  assert (c ∈ old_colors) as Hc.
  { apply (elem_of_list_to_set (C:=gset Color)). rewrite <- Hdom.
    apply elem_of_dom. by eexists. }
  destruct (last_occurrence _ c Hc) as (j & Hj & Hafter).
  rewrite (Hlast j c Hj Hafter) in Hv. injection Hv as <-.
  exists j. split; [done|].
  destruct (new_colors !! j) as [v|] eqn:Hnew; [by left|right].
  split; [done|]. by apply lookup_ge_None.
Qed.

(** Two lists without repeats and of one length: the dictionary pairs
    them index by index. *)
Lemma get_color_map_NoDup (old_colors new_colors : list Color) :
  NoDup old_colors → length old_colors = length new_colors →
  ∃ color_map,
    get_color_map old_colors new_colors = Ok color_map ∧
    (∀ i c, old_colors !! i = Some c → color_map !! c = new_colors !! i) ∧
    (∀ c v, color_map !! c = Some v →
       ∃ i, old_colors !! i = Some c ∧ new_colors !! i = Some v).
Proof.
  intros Hnodup Hlen.
  destruct (get_color_map_spec old_colors new_colors) as (m & Hm & Hdom & Hlast).
  exists m. split; [done|].
  assert (∀ i c, old_colors !! i = Some c → m !! c = new_colors !! i) as Hpair.
  { intros i c Hi. rewrite (Hlast i c Hi).
    - destruct (lookup_lt_is_Some_2 new_colors i) as [v ->]; [|done].
      rewrite <- Hlen. by eapply lookup_lt_Some.
    - intros k Hk Hk'. pose proof (NoDup_lookup _ _ _ _ Hnodup Hi Hk'). lia. }
  split; [done|]. intros c v Hv.
  assert (c ∈ old_colors) as Hc.
  { apply (elem_of_list_to_set (C:=gset Color)). rewrite <- Hdom.
    apply elem_of_dom. by eexists. }
  apply list_elem_of_lookup_1 in Hc as [i Hi]. exists i. split; [done|].
  by rewrite <- (Hpair i c Hi).
Qed.

(** X9. For two lists without repeated colors and of the same length, the
    dictionary of the lists taken the other way round is the inverse
    dictionary: it sends every value back to its key. *)
Theorem get_color_map_inverse (old_colors new_colors : list Color) :
  NoDup old_colors → NoDup new_colors →
  length old_colors = length new_colors →
  ∃ color_map back_map,
    get_color_map old_colors new_colors = Ok color_map ∧
    get_color_map new_colors old_colors = Ok back_map ∧
    ∀ c v, color_map !! c = Some v ↔ back_map !! v = Some c.
Proof.
  intros Hold Hnew Hlen.
  destruct (get_color_map_NoDup old_colors new_colors Hold Hlen)
    as (m & Hm & Hpair & Hval).
  destruct (get_color_map_NoDup new_colors old_colors Hnew (eq_sym Hlen))
    as (m' & Hm' & Hpair' & Hval').
  exists m, m'. split_and!; [done..|]. intros c v. split.
  - intros (i & Hi & Hv)%Hval. by rewrite (Hpair' i v Hv).
  - intros (i & Hi & Hc)%Hval'. by rewrite (Hpair i c Hc).
Qed.

(** X10. A swap is undone by the swap back: with a destination list
    without repeated colors and as long as the buffer's catalog, the
    transform step through the dictionary from the catalog to the list and
    then through the dictionary from the list to the catalog returns the
    buffer. *)
Theorem swap_pixels_there_and_back (buffer : Image)
    (new_colors : list Color) (fill : Color) :
  wf_image buffer → NoDup new_colors →
  length new_colors = length (get_im_data buffer) →
  ∃ color_map back_map out,
    get_color_map (get_im_data buffer) new_colors = Ok color_map ∧
    get_color_map new_colors (get_im_data buffer) = Ok back_map ∧
    swap_pixels buffer color_map (Image_new (im_size buffer) fill) = Ok out ∧
    swap_pixels out back_map (Image_new (im_size out) fill) = Ok buffer.
Proof.
  intros Hwf Hnew Hlen.
  pose proof (NoDup_catalog (getdata buffer)) as Hold.
  change (NoDup (get_im_data buffer)) in Hold.
  destruct (get_color_map_NoDup (get_im_data buffer) new_colors Hold (eq_sym Hlen))
    as (m & Hm & Hpair & Hval).
  destruct (get_color_map_NoDup new_colors (get_im_data buffer) Hnew Hlen)
    as (m' & Hm' & Hpair' & Hval').
  assert (∀ c, c ∈ getdata buffer →
            ∃ v, m !! c = Some v ∧ m' !! v = Some c) as Hback.
  { intros c Hc. apply elem_of_catalog in Hc.
    change (c ∈ get_im_data buffer) in Hc.
    apply list_elem_of_lookup_1 in Hc as [i Hi].
    destruct (lookup_lt_is_Some_2 new_colors i) as [v Hv].
    { rewrite Hlen. by eapply lookup_lt_Some. }
    exists v. by rewrite (Hpair i c Hi), (Hpair' i v Hv). }
  destruct (swap_pixels_Ok buffer m fill Hwf)
    as (out & Hout & Hwf' & Hsize & Hmapped).
  { intros c Hc. destruct (Hback c Hc) as (v & -> & _). by eexists. }
  assert (∀ x y, x < width buffer → y < height buffer →
            ∃ c v, getpixel buffer x y = Ok c ∧ getpixel out x y = Ok v ∧
                   m' !! v = Some c) as Hpix.
  { intros x y Hx Hy. destruct (Hmapped x y Hx Hy) as (c & v & Hc & Hv & Hv').
    destruct (Hback c) as (v' & Hm1 & Hm2).
    { apply (elem_of_getdata _ _ Hwf). by exists x, y. }
    exists c, v. split_and!; [done..|]. congruence. }
  assert (width out = width buffer) as Hw by (unfold width; by rewrite Hsize).
  assert (height out = height buffer) as Hh by (unfold height; by rewrite Hsize).
  destruct (swap_pixels_Ok out m' fill Hwf')
    as (back & Hback_out & Hwf'' & Hsize' & Hmapped').
  { intros v (x & y & Hx & Hy & Hv)%(elem_of_getdata _ _ Hwf').
    rewrite Hw in Hx. rewrite Hh in Hy.
    destruct (Hpix x y Hx Hy) as (c & v' & _ & Hv' & Hc).
    assert (v' = v) as -> by congruence. by eexists. }
  exists m, m', out. split_and!; [done..|]. rewrite Hback_out. f_equal.
  apply image_eq; [done|done|congruence|].
  intros x y Hx Hy.
  assert (x < width buffer) as Hx'
    by (unfold width in *; by rewrite <- Hsize, <- Hsize').
  assert (y < height buffer) as Hy'
    by (unfold height in *; by rewrite <- Hsize, <- Hsize').
  destruct (Hpix x y Hx' Hy') as (c & v & Hc & Hv & Hvc).
  destruct (Hmapped' x y) as (v' & c' & Hv' & Hc' & Hback');
    [by rewrite Hw|by rewrite Hh|].
  congruence.
Qed.

(** ** More on [load_palette_file] *)

Lemma list_ascii_of_string_app (s1 s2 : string) :
  list_ascii_of_string (s1 +:+ s2) =
  list_ascii_of_string s1 ++ list_ascii_of_string s2.
Proof. induction s1 as [|c s1 IH]; simpl; [done|]. by rewrite IH. Qed.

Lemma digit_of_pretty_N_char (d : N) :
  (d < 10)%N → digit_of (pretty_N_char d) = Some (Z.of_N d).
Proof.
  intros Hd.
  assert (d = 0 ∨ d = 1 ∨ d = 2 ∨ d = 3 ∨ d = 4 ∨ d = 5 ∨ d = 6 ∨ d = 7 ∨
          d = 8 ∨ d = 9)%N as Hcases by lia.
  repeat destruct Hcases as [->|Hcases]; try done. by subst.
Qed.

(** The digits that [str] writes are the digits that [int] reads. *)
Lemma digits_value_pretty_N_go (x : N) (s : string) (after_digit : bool) :
  (0 < x)%N →
  digits_value 0 after_digit (list_ascii_of_string (pretty_N_go x s)) =
  digits_value (Z.of_N x) true (list_ascii_of_string s).
Proof.
  revert s after_digit. induction (N.lt_wf_0 x) as [x _ IH]; intros s flag Hx.
  rewrite pretty_N_go_step by done.
  pose proof (digit_of_pretty_N_char (x `mod` 10)
                ltac:(by apply N.mod_lt)) as Hdigit.
  pose proof (N.div_mod x 10 ltac:(done)) as Hdm.
  destruct (decide (x `div` 10 = 0)%N) as [Hz|Hnz].
  - rewrite Hz, pretty_N_go_0. simpl. rewrite Hdigit. f_equal.
    rewrite Hz in Hdm. clear -Hdm. lia.
  - rewrite IH; [|by apply N.div_lt|by apply N.neq_0_lt_0].
    simpl. rewrite Hdigit. f_equal. clear -Hdm. lia.
Qed.

(** What [str] writes for an int has no whitespace and no comma in it. *)
Lemma pretty_N_go_plain (x : N) (s : string) :
  Forall (λ c, is_space c = false ∧ c ≠ ","%char) (list_ascii_of_string s) →
  Forall (λ c, is_space c = false ∧ c ≠ ","%char)
         (list_ascii_of_string (pretty_N_go x s)).
Proof.
  revert s. induction (N.lt_wf_0 x) as [x _ IH]; intros s Hs.
  destruct (decide (0 < x)%N) as [Hx|Hx].
  - rewrite pretty_N_go_step by done. apply IH; [apply N.div_lt; lia|].
    simpl. constructor; [|done].
    unfold pretty_N_char. by repeat case_match.
  - assert (x = 0%N) as -> by lia. by rewrite pretty_N_go_0.
Qed.

Lemma pretty_Z_plain (z : Z) :
  Forall (λ c, is_space c = false ∧ c ≠ ","%char)
         (list_ascii_of_string (pretty z)).
Proof.
  destruct z as [|p|p]; unfold pretty, pretty_Z.
  - by repeat constructor.
  - unfold pretty, pretty_positive, pretty, pretty_N.
    rewrite decide_False by done. by apply pretty_N_go_plain.
  - simpl. constructor; [done|].
    unfold pretty, pretty_positive, pretty, pretty_N.
    rewrite decide_False by done. by apply pretty_N_go_plain.
Qed.

Lemma lstrip_plain (l : list ascii) :
  Forall (λ c, is_space c = false) l → lstrip l = l.
Proof. destruct 1 as [|c l Hc _]; simpl; [done|]. by rewrite Hc. Qed.

(** Text without whitespace, with or without a newline after it. *)
Lemma strip_plain (l : list ascii) (newline : bool) :
  Forall (λ c, is_space c = false) l →
  strip (l ++ if newline then ["010"%char] else []) = l.
Proof.
  intros Hl. destruct (decide (l = [])) as [->|Hne].
  { by destruct newline. }
  unfold strip.
  assert (lstrip (l ++ if newline then ["010"%char] else []) =
          l ++ if newline then ["010"%char] else []) as ->.
  { destruct Hl as [|c l Hc _]; simpl; [done|]. by rewrite Hc. }
  rewrite reverse_app.
  assert (lstrip (reverse (if newline then ["010"%char] else []) ++ reverse l) =
          reverse l) as ->.
  { destruct newline; change (lstrip (reverse l) = reverse l);
      apply lstrip_plain; by apply Forall_reverse. }
  apply reverse_involutive.
Qed.

Lemma py_int_no_sign (s : string) (v : Z) :
  digits_value 0 false (strip (list_ascii_of_string s)) = Some v →
  py_int s = Some v.
Proof.
  unfold py_int. generalize (strip (list_ascii_of_string s)). intros l Hv.
  destruct l as [|c l]; [done|].
  destruct c as [[] [] [] [] [] [] [] []]; try exact Hv; by simpl in Hv.
Qed.

Lemma py_int_minus (s : string) (l : list ascii) (v : Z) :
  strip (list_ascii_of_string s) = "-"%char :: l →
  digits_value 0 false l = Some v →
  py_int s = Some (- v)%Z.
Proof. unfold py_int. intros -> Hv. simpl. by rewrite Hv. Qed.

(** [int(str(z))] is [z], also with a newline after the digits. *)
Lemma py_int_pretty (z : Z) (newline : bool) :
  py_int (pretty z +:+ if newline then String "010"%char EmptyString else EmptyString)
    = Some z.
Proof.
  assert (strip (list_ascii_of_string
            (pretty z +:+
             if newline then String "010"%char EmptyString else EmptyString)) =
          list_ascii_of_string (pretty z)) as Hstrip.
  { rewrite list_ascii_of_string_app.
    assert (list_ascii_of_string
              (if newline then String "010"%char EmptyString else EmptyString) =
            if newline then ["010"%char] else []) as -> by by destruct newline.
    apply strip_plain.
    eapply Forall_impl; [apply pretty_Z_plain|]. by intros c [? _]. }
  destruct z as [|p|p].
  - apply py_int_no_sign. by rewrite Hstrip.
  - apply py_int_no_sign. rewrite Hstrip.
    unfold pretty, pretty_Z, pretty, pretty_positive, pretty, pretty_N.
    rewrite decide_False by done. by rewrite digits_value_pretty_N_go.
  - apply (py_int_minus _ (list_ascii_of_string (pretty (Z.pos p))) (Z.pos p)).
    + by rewrite Hstrip.
    + unfold pretty, pretty_Z, pretty, pretty_positive, pretty, pretty_N.
      rewrite decide_False by done. by rewrite digits_value_pretty_N_go.
Qed.

Lemma split_no_sep (sep : ascii) (s : string) :
  Forall (λ c, c ≠ sep) (list_ascii_of_string s) → split sep s = [s].
Proof.
  induction s as [|c s IH]; simpl; [done|].
  intros [Hc Hs]%Forall_cons. rewrite decide_False by done.
  by rewrite (IH Hs).
Qed.

Lemma split_app_sep (sep : ascii) (s rest : string) :
  Forall (λ c, c ≠ sep) (list_ascii_of_string s) →
  split sep (s +:+ String sep rest) = s :: split sep rest.
Proof.
  induction s as [|c s IH]; simpl.
  - intros _. by rewrite decide_True.
  - intros [Hc Hs]%Forall_cons. rewrite decide_False by done.
    by rewrite (IH Hs).
Qed.

Lemma append_String_assoc (s1 : string) (c : ascii) (s2 s3 : string) :
  (s1 +:+ String c s2) +:+ s3 = s1 +:+ String c (s2 +:+ s3).
Proof.
  induction s1 as [|c1 s1 IH1]; [done|].
  change (String c1 ((s1 +:+ String c s2) +:+ s3) =
          String c1 (s1 +:+ String c (s2 +:+ s3))).
  by rewrite IH1.
Qed.

Lemma append_empty_r (s : string) : s +:+ EmptyString = s.
Proof.
  induction s as [|c s IHs]; [done|].
  change (String c (s +:+ EmptyString) = String c s). by rewrite IHs.
Qed.

(** A line written from a color (of at least one value) reads back as the
    color. *)
Lemma parse_entry_palette_line (color : Color) :
  color ≠ [] → parse_entry (palette_line color) = Some color.
Proof.
  intros Hne. unfold parse_entry, palette_line.
  destruct color as [|z color]; [done|]. clear Hne.
  revert z. induction color as [|z' color IH]; intros z.
  - simpl. rewrite split_no_sep.
    + cbn [mapM]. rewrite (py_int_pretty z true). done.
    + rewrite list_ascii_of_string_app. apply Forall_app. split.
      * eapply Forall_impl; [apply pretty_Z_plain|]. by intros c [_ ?].
      * by repeat constructor.
  - change (String.concat "," (pretty <$> z :: z' :: color))
      with (pretty z +:+ String ","%char (String.concat "," (pretty <$> z' :: color))).
    rewrite append_String_assoc, split_app_sep.
    2: { eapply Forall_impl; [apply pretty_Z_plain|]. by intros c [_ ?]. }
    cbn [mapM]. pose proof (py_int_pretty z false) as Hz.
    rewrite append_empty_r in Hz. rewrite Hz. cbn [mbind option_bind].
    by rewrite (IH z').
Qed.

Lemma mapM_parse_entry_palette_line (colors : list Color) :
  Forall (λ c, c ≠ []) colors →
  mapM parse_entry (palette_line <$> colors) = Some colors.
Proof.
  induction 1 as [|c colors Hc _ IH]; [done|].
  cbn [fmap list_fmap mapM]. rewrite (parse_entry_palette_line c Hc).
  cbn [mbind option_bind]. fold (palette_line <$> colors). by rewrite IH.
Qed.

(** X11. A palette file written one color per line, each line the values of
    the color in decimal separated by commas and ended by a newline, is
    read as those colors in file order: [load_palette_file] returns what
    [make_palette] returns on them with the text "new palette". *)
Theorem load_palette_file_reads_written_colors (text : TextPainter)
    (colors : list Color) :
  Forall (λ c, c ≠ []) colors →
  load_palette_file text (palette_line <$> colors) =
    make_palette text None (Some colors) (Some "new palette"%string).
Proof.
  intros Hcolors.
  pose proof (load_palette_file_colors [] (palette_line <$> colors)) as Hfile.
  rewrite (mapM_parse_entry_palette_line colors Hcolors) in Hfile.
  match type of Hfile with ?loop = _ =>
    change (load_palette_file text (palette_line <$> colors))
      with (colors ← loop;
            make_palette text None (Some colors) (Some "new palette"%string))
  end.
  by rewrite Hfile.
Qed.

(** ** The outcomes of [make_palette], [load_palette_file] and [swap_colors] *)

(** X12. The errors of [make_palette] on a given color list: it raises
    [ZeroDivisionError] exactly when the list is empty; any other error is
    the [TypeError] or [OverflowError] with which Pillow rejects a fill
    color of the list that is not an RGBA pixel value; and a non-empty list
    of RGBA pixel values always gives a palette image. *)
Theorem make_palette_errors (text : TextPainter) (base : option Image)
    (colors : list Color) (disp_text : option string) :
  (make_palette text base (Some colors) disp_text = Raise ZeroDivisionError ↔
   colors = []) ∧
  (∀ e, make_palette text base (Some colors) disp_text = Raise e →
     e = ZeroDivisionError ∨
     ((e = TypeError ∨ e = OverflowError) ∧ ∃ c, c ∈ colors ∧ ¬ rgba c)) ∧
  (colors ≠ [] → Forall rgba colors →
   ∃ palette_image,
     make_palette text base (Some colors) disp_text = Ok palette_image).
Proof.
  split_and!.
  - apply make_palette_ZeroDivisionError.
  - intros e Hres. destruct (decide (colors = [])) as [->|Hne].
    + rewrite make_palette_no_colors in Hres. left. by injection Hres.
    + right. rewrite make_palette_any_text in Hres by done.
      destruct (mapM getink colors) as [inks|e'] eqn:Hinks;
        cbn [mbind res_bind] in Hres; [discriminate Hres|].
      injection Hres as ->.
      apply mapM_getink_Raise in Hinks as (c & Hin & Hc).
      apply getink_Raise in Hc as [Hc He]. split; [done|]. by exists c.
  - intros Hne Hrgba. rewrite make_palette_any_text by done.
    rewrite mapM_getink_rgba_id by done. cbn [mbind res_bind]. by eexists.
Qed.

(** X13. [load_palette_file] raises [ZeroDivisionError] exactly on the file
    without lines: the empty list of colors reaches the division of
    [make_palette]. *)
Theorem load_palette_file_empty_file (text : TextPainter) (file : list string) :
  load_palette_file text file = Raise ZeroDivisionError ↔ file = [].
Proof.
  pose proof (load_palette_file_colors [] file) as Hfile.
  destruct (mapM parse_entry file) as [colors|] eqn:Hcolors.
  - assert (load_palette_file text file =
              make_palette text None (Some colors) (Some "new palette"%string))
      as ->.
    { match type of Hfile with ?loop = _ =>
        change (load_palette_file text file)
          with (colors ← loop;
                make_palette text None (Some colors) (Some "new palette"%string))
      end.
      by rewrite Hfile. }
    rewrite make_palette_ZeroDivisionError.
    apply length_mapM in Hcolors.
    split; intros ->; [by destruct file|by destruct colors].
  - destruct Hfile as (entry & val & Hin & _ & _ & Hres).
    assert (load_palette_file text file = Raise (ValueError val)) as ->.
    { match type of Hres with ?loop = _ =>
        change (load_palette_file text file)
          with (colors ← loop;
                make_palette text None (Some colors) (Some "new palette"%string))
      end.
      by rewrite Hres. }
    split; [done|]. intros ->. by apply elem_of_nil in Hin.
Qed.

(** X5. The three outcomes of [swap_colors] on an RGBA image, by the number
    of distinct colors of the image: an image is returned, of the size of
    the original, exactly for 1 to 300 colors; the error is
    [ZeroDivisionError] exactly when the image has no pixel, and the
    [KeyError] of one of its pixels exactly for more than 300 colors; no
    other error is raised. *)
Theorem swap_colors_outcome (text : TextPainter) (original palette : Image) :
  wf_image original → rgba_image original →
  match swap_colors text original palette with
  | Ok out =>
      1 ≤ length (get_im_data original) ≤ 300 ∧ im_size out = im_size original
  | Raise ZeroDivisionError => getdata original = []
  | Raise (KeyError c) =>
      300 < length (get_im_data original) ∧ c ∈ getdata original
  | Raise _ => False
  end.
Proof.
  intros Hwf Hrgba.
  destruct (decide (length (get_im_data original) = 0)) as [H0|H0].
  - apply nil_length_inv in H0.
    assert (getdata original = []) as Hdata.
    { destruct (getdata original) as [|c l] eqn:Hdata; [done|].
      assert (c ∈ get_im_data original) as Hc.
      { apply (proj2 (elem_of_catalog (getdata original) c)).
        rewrite Hdata. by left. }
      rewrite H0 in Hc. by apply elem_of_nil in Hc. }
    by rewrite swap_colors_no_pixels.
  - destruct (decide (length (get_im_data original) ≤ 300)) as [H300|H300].
    + destruct (swap_colors_up_to_300_colors text original palette Hwf Hrgba)
        as (old_pal & color_map & out & _ & _ & -> & Hsize & _); [lia|].
      split; [lia|done].
    + destruct (swap_colors_over_300_colors text original palette Hwf Hrgba)
        as (c & Hc & ->); [lia|].
      split; [lia|done].
Qed.

(** ** The further theorems on sample data *)

(** The palette of red, green and blue: three strips of 100 columns. *)
Lemma make_palette_one_strip_per_color_witness :
  Forall rgba [red; green; blue] ∧ 1 ≤ length [red; green; blue] ≤ 300 ∧
  ∀ text : TextPainter,
  ∃ palette_image,
    make_palette text None (Some [red; green; blue]) None = Ok palette_image ∧
    im_size palette_image = (300, 200) ∧ wf_image palette_image ∧
    (∀ k c x y,
       [red; green; blue] !! k = Some c →
       300 / length [red; green; blue] * k ≤ x
         < 300 / length [red; green; blue] * (k + 1) →
       y < 200 → getpixel palette_image x y = Ok c) ∧
    (∀ x y,
       300 / length [red; green; blue] * length [red; green; blue] < x < 300 →
       y < 200 → getpixel palette_image x y = Ok [0; 0; 0; 0]%Z).
Proof.
  assert (Forall rgba [red; green; blue]) as Hrgba.
  { apply (bool_decide_unpack _). vm_compute. exact I. }
  assert (1 ≤ length [red; green; blue] ≤ 300) as Hlen by (simpl; lia).
  split; [exact Hrgba|]. split; [exact Hlen|]. intros text.
  exact (make_palette_one_strip_per_color text None [red; green; blue]
           Hrgba Hlen).
Defined.

(** The palette of red, green and blue read back: the strips fill the 300
    columns, so no transparent black follows. *)
Lemma get_im_data_of_make_palette_witness :
  Forall rgba [red; green; blue] ∧ NoDup [red; green; blue] ∧
  1 ≤ length [red; green; blue] ≤ 300 ∧
  ∀ text : TextPainter,
  ∃ palette_image,
    make_palette text None (Some [red; green; blue]) None = Ok palette_image ∧
    get_im_data palette_image =
      [red; green; blue] ++
      if decide (300 / length [red; green; blue] * length [red; green; blue] + 1
                   < 300 ∧
                 [0; 0; 0; 0]%Z ∉ [red; green; blue])
      then [[0; 0; 0; 0]%Z] else [].
Proof.
  assert (Forall rgba [red; green; blue]) as Hrgba.
  { apply (bool_decide_unpack _). vm_compute. exact I. }
  assert (NoDup [red; green; blue]) as Hnodup.
  { apply (bool_decide_unpack _). vm_compute. exact I. }
  assert (1 ≤ length [red; green; blue] ≤ 300) as Hlen by (simpl; lia).
  split; [exact Hrgba|]. split; [exact Hnodup|]. split; [exact Hlen|].
  intros text.
  exact (get_im_data_of_make_palette text None [red; green; blue]
           Hrgba Hnodup Hlen).
Defined.

(** The palette of the 301 colors of the 301x1 image. *)
Lemma get_im_data_of_make_palette_over_300_witness :
  Forall rgba (getdata image_301_colors) ∧
  300 < length (getdata image_301_colors) ∧
  ∀ text : TextPainter,
  ∃ palette_image c_last,
    make_palette text None (Some (getdata image_301_colors)) None =
      Ok palette_image ∧
    last (getdata image_301_colors) = Some c_last ∧
    get_im_data palette_image =
      if decide (c_last = [0; 0; 0; 0]%Z) then [c_last]
      else [c_last; [0; 0; 0; 0]%Z].
Proof.
  assert (Forall rgba (getdata image_301_colors)) as Hrgba.
  { apply (bool_decide_unpack _). vm_compute. exact I. }
  assert (300 < length (getdata image_301_colors)) as Hlen.
  { apply Nat.ltb_lt. vm_compute. reflexivity. }
  split; [exact Hrgba|]. split; [exact Hlen|]. intros text.
  exact (get_im_data_of_make_palette_over_300 text None
           (getdata image_301_colors) Hrgba Hlen).
Defined.

(** The pipeline on the sample image, with the sample image as palette. *)
Lemma swap_colors_by_catalog_position_witness :
  wf_image sample_image ∧ rgba_image sample_image ∧
  1 ≤ length (get_im_data sample_image) ≤ 300 ∧
  ∀ text : TextPainter,
  ∃ out,
    swap_colors text sample_image sample_image = Ok out ∧
    width out = width sample_image ∧ height out = height sample_image ∧
    ∀ x y, x < width sample_image → y < height sample_image →
      ∃ c i, getpixel sample_image x y = Ok c ∧
             get_im_data sample_image !! i = Some c ∧
             getpixel out x y = Ok (default c (get_im_data sample_image !! i)).
Proof.
  assert (wf_image sample_image) as Hwf.
  { apply (bool_decide_unpack _). vm_compute. exact I. }
  assert (rgba_image sample_image) as Hrgba.
  { apply (bool_decide_unpack _). vm_compute. exact I. }
  assert (1 ≤ length (get_im_data sample_image) ≤ 300) as Hlen.
  { change (get_im_data sample_image) with [red; green; blue]. simpl. lia. }
  split; [exact Hwf|]. split; [exact Hrgba|]. split; [exact Hlen|].
  intros text.
  exact (swap_colors_by_catalog_position text sample_image sample_image
           Hwf Hrgba Hlen).
Defined.

(** The outcome of the pipeline on the sample image. *)
Lemma swap_colors_outcome_witness :
  wf_image sample_image ∧ rgba_image sample_image ∧
  ∀ text : TextPainter,
  ∃ outcome,
    swap_colors text sample_image sample_image = outcome ∧
    match outcome with
    | Ok out =>
        1 ≤ length (get_im_data sample_image) ≤ 300 ∧
        im_size out = im_size sample_image
    | Raise ZeroDivisionError => getdata sample_image = []
    | Raise (KeyError c) =>
        300 < length (get_im_data sample_image) ∧ c ∈ getdata sample_image
    | Raise _ => False
    end.
Proof.
  assert (wf_image sample_image) as Hwf.
  { apply (bool_decide_unpack _). vm_compute. exact I. }
  assert (rgba_image sample_image) as Hrgba.
  { apply (bool_decide_unpack _). vm_compute. exact I. }
  split; [exact Hwf|]. split; [exact Hrgba|]. intros text.
  exists (swap_colors text sample_image sample_image). split; [reflexivity|].
  exact (swap_colors_outcome text sample_image sample_image Hwf Hrgba).
Defined.

(** The sample image through its own palette. *)
Lemma swap_colors_own_palette_witness :
  wf_image sample_image ∧ rgba_image sample_image ∧
  1 ≤ length (get_im_data sample_image) ≤ 300 ∧
  ∀ text : TextPainter,
  ∃ old_pal,
    make_palette text (Some sample_image) None None = Ok old_pal ∧
    swap_colors text sample_image old_pal = Ok sample_image.
Proof.
  assert (wf_image sample_image) as Hwf.
  { apply (bool_decide_unpack _). vm_compute. exact I. }
  assert (rgba_image sample_image) as Hrgba.
  { apply (bool_decide_unpack _). vm_compute. exact I. }
  assert (1 ≤ length (get_im_data sample_image) ≤ 300) as Hlen.
  { change (get_im_data sample_image) with [red; green; blue]. simpl. lia. }
  split; [exact Hwf|]. split; [exact Hrgba|]. split; [exact Hlen|].
  intros text.
  exact (swap_colors_own_palette text sample_image Hwf Hrgba Hlen).
Defined.

(** A 2x1 image of a red and a green pixel. *)
Lemma get_im_data_distinct_pixels_witness :
  NoDup (getdata (mkImage (2, 1) [[red; green]])) ∧
  get_im_data (mkImage (2, 1) [[red; green]]) =
    getdata (mkImage (2, 1) [[red; green]]).
Proof.
  assert (NoDup (getdata (mkImage (2, 1) [[red; green]]))) as Hnodup.
  { apply (bool_decide_unpack _). vm_compute. exact I. }
  split; [exact Hnodup|].
  exact (get_im_data_distinct_pixels (mkImage (2, 1) [[red; green]]) Hnodup).
Defined.

(** Red and green to blue and white, and back. *)
Lemma get_color_map_inverse_witness :
  NoDup [red; green] ∧ NoDup [blue; white] ∧
  length [red; green] = length [blue; white] ∧
  ∃ color_map back_map,
    get_color_map [red; green] [blue; white] = Ok color_map ∧
    get_color_map [blue; white] [red; green] = Ok back_map ∧
    ∀ c v, color_map !! c = Some v ↔ back_map !! v = Some c.
Proof.
  assert (NoDup [red; green]) as Hold.
  { apply (bool_decide_unpack _). vm_compute. exact I. }
  assert (NoDup [blue; white]) as Hnew.
  { apply (bool_decide_unpack _). vm_compute. exact I. }
  split; [exact Hold|]. split; [exact Hnew|]. split; [reflexivity|].
  exact (get_color_map_inverse [red; green] [blue; white] Hold Hnew eq_refl).
Defined.

(** The sample image swapped to green, blue and red, and back. *)
Lemma swap_pixels_there_and_back_witness :
  wf_image sample_image ∧ NoDup [green; blue; red] ∧
  length [green; blue; red] = length (get_im_data sample_image) ∧
  ∃ color_map back_map out,
    get_color_map (get_im_data sample_image) [green; blue; red] = Ok color_map ∧
    get_color_map [green; blue; red] (get_im_data sample_image) = Ok back_map ∧
    swap_pixels sample_image color_map
      (Image_new (im_size sample_image) [255; 255; 255; 0]%Z) = Ok out ∧
    swap_pixels out back_map (Image_new (im_size out) [255; 255; 255; 0]%Z) =
      Ok sample_image.
Proof.
  assert (wf_image sample_image) as Hwf.
  { apply (bool_decide_unpack _). vm_compute. exact I. }
  assert (NoDup [green; blue; red]) as Hnew.
  { apply (bool_decide_unpack _). vm_compute. exact I. }
  split; [exact Hwf|]. split; [exact Hnew|]. split; [reflexivity|].
  exact (swap_pixels_there_and_back sample_image [green; blue; red]
           [255; 255; 255; 0]%Z Hwf Hnew eq_refl).
Defined.

(** A palette file written from red and green. *)
Lemma load_palette_file_reads_written_colors_witness :
  Forall (λ c : Color, c ≠ []) [red; green] ∧
  ∀ text : TextPainter,
    load_palette_file text (palette_line <$> [red; green]) =
      make_palette text None (Some [red; green]) (Some "new palette"%string).
Proof.
  assert (Forall (λ c : Color, c ≠ []) [red; green]) as Hcolors.
  { repeat first [apply Forall_nil_2 | apply Forall_cons_2]; discriminate. }
  split; [exact Hcolors|]. intros text.
  exact (load_palette_file_reads_written_colors text [red; green] Hcolors).
Defined.
